(** * One-dimensional cellular automata over bit-packed rows

    A shallow embedding of the simulation engine of [automata.c]
    (the variant with a rule list and a meta rule): the population
    count, the branchless rule application on a 64-bit segment, the
    meta-rule selection, the row update with toroidal neighbours, the
    run loop with its reversible carry, and the rule-string parser.

    Conventions.  A [uint64_t] is a [Z] in [0, 2^64); every operation
    that can leave that range in C has its wrap-around written out with
    [u64].  A [uint8_t] is a [Z] in [0, 2^8), wrapped with [u8].  An
    [int] is a [Z]; the meta-rule arithmetic never leaves the range of
    [int], and [Z.lnot], [Z.land], [Z.lor] and [Z.lxor] are the two's
    complement operations.  Bit [k] of a word is [Z.testbit w k], so
    bit 0 is the least significant one.  Rows are lists of words, read
    by index with [!!!] and written by index with [<[i:=x]>]. *)

From Stdlib Require Import ZArith List Lia Bool String Ascii.
From stdpp Require Import base list.

Local Open Scope Z_scope.

(** ** Machine words *)

Definition u64 (z : Z) : Z := z mod 2 ^ 64.
Definition u8 (z : Z) : Z := z mod 2 ^ 8.

(** [~0UL] *)
Definition ULONG_MAX : Z := u64 (Z.lnot 0).

(** [~x] on a [uint64_t] *)
Definition not64 (x : Z) : Z := u64 (Z.lnot x).

(** [#define BIT_TO_MAX(b, n) (((b >> n) & 1) * ~0UL)] *)
Definition BIT_TO_MAX (b n : Z) : Z :=
  u64 (Z.land (Z.shiftr b n) 1 * ULONG_MAX).

(** ** Population count *)

Definition B : list Z :=
  [ 0x5555555555555555; 0x3333333333333333; 0x0f0f0f0f0f0f0f0f;
    0x00ff00ff00ff00ff; 0x0000ffff0000ffff; 0x00000000ffffffff ].

(** One turn of the loop of [pop_count]:
    [ret = ((ret >> (1 << i)) & B[i]) + (ret & B[i])]. *)
Definition pop_count_step (ret : Z) (i : nat) : Z :=
  let Bi := nth i B 0 in
  u64 (Z.land (Z.shiftr ret (Z.shiftl 1 (Z.of_nat i))) Bi + Z.land ret Bi).

(** [pop_count]: six turns, then the conversion to [uint8_t]. *)
Definition pop_count (bit_field : Z) : Z :=
  u8 (fold_left pop_count_step (seq 0 6) bit_field).

(** The number of 1 bits among the low [n] bits of [w], counted one
    bit at a time. *)
Fixpoint ones_below (n : nat) (w : Z) : Z :=
  match n with
  | O => 0
  | S m => ones_below m w + Z.b2z (Z.testbit w (Z.of_nat m))
  end.

Definition bit_count (w : Z) : Z := ones_below 64 w.

(** ** Rule application on one 64-bit segment *)

(** [l = (c >> 1) ^ (c_prev << 63)]: the left neighbour of every cell. *)
Definition left_cells (c_prev c : Z) : Z :=
  Z.lxor (Z.shiftr c 1) (u64 (Z.shiftl c_prev 63)).

(** [r = (c << 1) ^ (c_next >> 63)]: the right neighbour of every cell. *)
Definition right_cells (c c_next : Z) : Z :=
  Z.lxor (u64 (Z.shiftl c 1)) (Z.shiftr c_next 63).

(** The contribution of pattern [i]:
    [active & ~(left ^ l) & ~(center ^ c) & ~(right ^ r)]. *)
Definition rule_term (rule l c r i : Z) : Z :=
  let active := BIT_TO_MAX rule i in
  let left   := BIT_TO_MAX i 2 in
  let center := BIT_TO_MAX i 1 in
  let right  := BIT_TO_MAX i 0 in
  Z.land (Z.land (Z.land active (not64 (Z.lxor left l)))
                 (not64 (Z.lxor center c)))
         (not64 (Z.lxor right r)).

(** The patterns [0 .. 7] in loop order. *)
Definition patterns : list Z := map Z.of_nat (seq 0 8).

(** [c_next_step] after the loop over the eight patterns. *)
Definition rule_lookup (rule l c r : Z) : Z :=
  fold_left (fun acc i => Z.lor acc (rule_term rule l c r i)) patterns 0.

Definition ca1d_rule_apply (rule c_prev c c_next c_prev_step : Z) : Z :=
  let l := left_cells c_prev c in
  let r := right_cells c c_next in
  let c_next_step := rule_lookup rule l c r in
  Z.lxor c_next_step c_prev_step.

(** The 3-bit neighbourhood at bit [k] of the words [l], [c], [r]:
    left cell in bit 2, centre cell in bit 1, right cell in bit 0. *)
Definition pattern_at (l c r k : Z) : Z :=
  4 * Z.b2z (Z.testbit l k) + 2 * Z.b2z (Z.testbit c k) + Z.b2z (Z.testbit r k).

(** ** Meta rule *)

(** [pop_count(w) > 32 ? 1 : 0] *)
Definition density (w : Z) : Z := if 32 <? pop_count w then 1 else 0.

(** The contribution of pattern [i] in [ca1d_meta_rule_apply], on [int]s. *)
Definition meta_term (rule pl pc pr i : Z) : Z :=
  let active := Z.land (Z.shiftr rule i) 1 in
  let left   := Z.land (Z.shiftr i 2) 1 in
  let center := Z.land (Z.shiftr i 1) 1 in
  let right  := Z.land i 1 in
  Z.land (Z.land (Z.land active (Z.lnot (Z.lxor left pl)))
                 (Z.lnot (Z.lxor center pc)))
         (Z.lnot (Z.lxor right pr)).

(** [c_next_step] of [ca1d_meta_rule_apply] after its loop: the index
    with which [rules] is read. *)
Definition ca1d_meta_rule_index (rule c_prev c c_next : Z) : Z :=
  let pl := density c_prev in
  let pc := density c in
  let pr := density c_next in
  fold_left (fun acc i => Z.lor acc (meta_term rule pl pc pr i)) patterns 0.

Definition ca1d_meta_rule_apply (rules : list Z) (rule c_prev c c_next : Z) : Z :=
  rules !!! Z.to_nat (ca1d_meta_rule_index rule c_prev c c_next).

(** ** The globals of the engine *)

(** [width], [height], [rule_n], [rules], [reversible] and [meta_rule].
    [width] and [height] are [size_t]s, modelled as [nat]s; the
    expression [width - 1] is only meaningful for [1 <= width], which
    every statement below assumes. *)
Record globals := Globals {
  width : nat;
  height : nat;
  rule_n : Z;
  rules : list Z;
  reversible : Z;
  meta_rule : Z
}.

(** [GP_MIN(a, b)] *)
Definition GP_MIN (a b : nat) : nat := if (a <? b)%nat then a else b.

(** [rules[i % rule_n]].  For [rule_n = 0] the C expression divides by
    zero and the program stops there, where [Z.modulo] gives a number:
    the definition stands for the code for [rule_n <> 0] only, and
    every statement about a row update or a run that reaches it
    assumes [rule_n <> 0]. *)
Definition rules_at (g : globals) (i : nat) : Z :=
  rules g !!! Z.to_nat (Z.of_nat i mod rule_n g).

(** ** Row update, rule list only *)

(** [for (i = 1; i < width - 1; i++) next[i] = ...]; the loop returns
    the final [i] together with the row written so far. *)
Fixpoint rule_row_loop (g : globals) (fuel : nat) (prev cur : list Z)
    (i : nat) (next : list Z) : nat * list Z :=
  match fuel with
  | O => (i, next)
  | S fuel' =>
      if (i <? width g - 1)%nat then
        rule_row_loop g fuel' prev cur (i + 1)
          (<[i := ca1d_rule_apply (rules_at g i)
                    (cur !!! (i - 1)%nat) (cur !!! i) (cur !!! (i + 1)%nat)
                    (prev !!! i)]> next)
      else (i, next)
  end.

Definition ca1d_rule_apply_row (g : globals) (prev cur next : list Z) : list Z :=
  let next :=
    <[0%nat := ca1d_rule_apply (rules g !!! 0%nat)
                 (cur !!! (width g - 1)%nat) (cur !!! 0%nat)
                 (cur !!! GP_MIN 1 (width g - 1))
                 (prev !!! 0%nat)]> next in
  let '(i, next) := rule_row_loop g (width g) prev cur 1 next in
  if (width g <=? i)%nat then next
  else
    <[i := ca1d_rule_apply (rules_at g i)
              (cur !!! (i - 1)%nat) (cur !!! i) (cur !!! 0%nat)
              (prev !!! i)]> next.

(** ** Row update, meta rule *)

(** [rule = ca1d_meta_rule_apply(meta_rule, c_prev, c, c_next);
     ca1d_rule_apply(rule, c_prev, c, c_next, p)] *)
Definition meta_word (g : globals) (c_prev c c_next p : Z) : Z :=
  let rule := ca1d_meta_rule_apply (rules g) (meta_rule g) c_prev c c_next in
  ca1d_rule_apply rule c_prev c c_next p.

Fixpoint meta_row_loop (g : globals) (fuel : nat) (prev cur : list Z)
    (i : nat) (next : list Z) : nat * list Z :=
  match fuel with
  | O => (i, next)
  | S fuel' =>
      if (i <? width g - 1)%nat then
        meta_row_loop g fuel' prev cur (i + 1)
          (<[i := meta_word g (cur !!! (i - 1)%nat) (cur !!! i)
                    (cur !!! (i + 1)%nat) (prev !!! i)]> next)
      else (i, next)
  end.

Definition ca1d_meta_rule_apply_row (g : globals) (prev cur next : list Z) : list Z :=
  let next :=
    <[0%nat := meta_word g (cur !!! (width g - 1)%nat) (cur !!! 0%nat)
                 (cur !!! GP_MIN 1 (width g - 1)) (prev !!! 0%nat)]> next in
  let '(i, next) := meta_row_loop g (width g) prev cur 1 next in
  if (width g <=? i)%nat then next
  else
    <[i := meta_word g (cur !!! (i - 1)%nat) (cur !!! i) (cur !!! 0%nat)
              (prev !!! i)]> next.

(** ** The run *)

(** The matrix [steps] is a list of rows; [steps + gp_matrix_idx(width,
    i, 0)] is row [i].  A row pointer is either the zero row [zeroes]
    or a row of [steps]. *)
Inductive rowptr := Zeroes | StepsRow (i : nat).

Definition deref (g : globals) (steps : list (list Z)) (p : rowptr) : list Z :=
  match p with
  | Zeroes => replicate (width g) 0
  | StepsRow i => steps !!! i
  end.

(** [if (meta_rule) ca1d_meta_rule_apply_row(prev, cur, next);
     else ca1d_rule_apply_row(prev, cur, next);] *)
Definition row_update (g : globals) (steps : list (list Z))
    (prev cur : rowptr) (next : nat) : list (list Z) :=
  let row :=
    if meta_rule g =? 0
    then ca1d_rule_apply_row g (deref g steps prev) (deref g steps cur) (steps !!! next)
    else ca1d_meta_rule_apply_row g (deref g steps prev) (deref g steps cur) (steps !!! next) in
  <[next := row]> steps.

(** The [for (;;)] loop of [ca1d_run]. *)
Fixpoint run_loop (g : globals) (fuel : nat) (steps : list (list Z))
    (prev cur : rowptr) (next i : nat) : list (list Z) :=
  match fuel with
  | O => steps
  | S fuel' =>
      let steps := row_update g steps prev cur next in
      let i := (i + 1)%nat in
      if (height g <=? i)%nat then steps
      else
        run_loop g fuel' steps
          (if reversible g =? 0 then Zeroes else cur) (StepsRow next) i i
  end.

(** [ca1d_run]: [memcpy] of [width] words of [init] into row 0, then
    the loop, which ends after at most [height] turns. *)
Definition ca1d_run (g : globals) (init : list Z) (steps : list (list Z))
    : list (list Z) :=
  let steps := <[0%nat := take (width g) init]> steps in
  run_loop g (S (height g)) steps Zeroes (StepsRow 0) 1 1.

(** Toroidal column indices. *)
Definition left_col (w i : nat) : nat := if (i =? 0)%nat then (w - 1)%nat else (i - 1)%nat.
Definition right_col (w i : nat) : nat := if (i =? w - 1)%nat then 0%nat else (i + 1)%nat.

(** The rule the rule-list row update uses at column [i]. *)
Definition plain_rule (g : globals) (i : nat) : Z :=
  if (i =? 0)%nat then rules g !!! 0%nat else rules_at g i.

(** The rule the meta row update uses at column [i] of the row [cur]. *)
Definition meta_rule_at (g : globals) (cur : list Z) (i : nat) : Z :=
  ca1d_meta_rule_apply (rules g) (meta_rule g)
    (cur !!! left_col (width g) i) (cur !!! i) (cur !!! right_col (width g) i).

(** The rule a run uses at column [i] when [cur] is the current row. *)
Definition rule_used (g : globals) (cur : list Z) (i : nat) : Z :=
  if meta_rule g =? 0 then plain_rule g i else meta_rule_at g cur i.

(** The carry row a run uses to compute row [k] of the matrix [m]. *)
Definition carry_row (g : globals) (m : list (list Z)) (k : nat) : list Z :=
  if (k <? 2)%nat then replicate (width g) 0
  else if reversible g =? 0 then replicate (width g) 0
  else m !!! (k - 2)%nat.

(** ** The rule-string parser *)

Definition code (ch : ascii) : Z := Z.of_N (N_of_ascii ch).

(** The cases of the [switch] on the current character, with the
    terminating NUL apart. *)
Inductive char_class := Nul | Digit | Separator | Space | Other.

Definition classify (ch : ascii) : char_class :=
  let n := code ch in
  if n =? 0 then Nul
  else if (48 <=? n) && (n <=? 57) then Digit        (* 0 ... 9 *)
  else if (n =? 44) || (n =? 59) then Separator      (* comma, semicolon *)
  else if n =? 32 then Space                         (* space *)
  else Other.

(** How the [while] loop is left: through the label [out] (the end of
    the string, or [goto out]) with the two locals, or by [return]. *)
Inductive loop_exit := Out (rule_acc rule_indx : Z) | Return.

Fixpoint parse_loop (c : string) (rules : list Z) (rule_acc rule_indx : Z)
    : list Z * loop_exit :=
  match c with
  | EmptyString => (rules, Out rule_acc rule_indx)
  | String ch c' =>
      match classify ch with
      | Nul => (rules, Out rule_acc rule_indx)
      | Digit =>
          if 25 <? rule_acc then (rules, Out rule_acc rule_indx)
          else parse_loop c' rules (u8 (u8 (rule_acc * 10) + (code ch - 48))) rule_indx
      | Separator =>
          parse_loop c' (<[Z.to_nat rule_indx := rule_acc]> rules) 0 (u8 (rule_indx + 1))
      | Space => parse_loop c' rules rule_acc rule_indx
      | Other => (rules, Return)
      end
  end.

(** [parse_rule_nums] on the globals [rules] and [rule_n]. *)
Definition parse_rule_nums (rules_str : string) (st : list Z * Z) : list Z * Z :=
  match parse_loop rules_str (fst st) 0 0 with
  | (rules', Out rule_acc rule_indx) =>
      (<[Z.to_nat rule_indx := rule_acc]> rules', u8 (rule_indx + 1))
  | (rules', Return) => (rules', snd st)
  end.

(** The table [rules[256] = { 110 }] and [rule_n = 1] at start-up. *)
Definition initial_rules : list Z := 110 :: replicate 255 0.
Definition initial_state : list Z * Z := (initial_rules, 1).

(** Why the parser stopped reading. *)
Inductive stop := EndOfString | Overflow | Unrecognized.

(** The characters the loop consumes before it stops, and why it
    stops; [rule_acc] is the accumulator on entry. *)
Fixpoint scan (c : string) (rule_acc : Z) : string * stop :=
  match c with
  | EmptyString => (EmptyString, EndOfString)
  | String ch c' =>
      match classify ch with
      | Nul => (EmptyString, EndOfString)
      | Digit =>
          if 25 <? rule_acc then (EmptyString, Overflow)
          else
            let '(p, s) := scan c' (u8 (u8 (rule_acc * 10) + (code ch - 48))) in
            (String ch p, s)
      | Separator => let '(p, s) := scan c' 0 in (String ch p, s)
      | Space => let '(p, s) := scan c' rule_acc in (String ch p, s)
      | Other => (EmptyString, Unrecognized)
      end
  end.

Definition consumed (c : string) : string := fst (scan c 0).
Definition stop_of (c : string) : stop := snd (scan c 0).

(** The rule table after the stores made at the separators of [c]. *)
Definition stores (c : string) (rules : list Z) : list Z :=
  fst (parse_loop c rules 0 0).

(** What the remainder of the string begins with, for each way of
    stopping. *)
Definition stopped_at (why : stop) (rest : string) : Prop :=
  match why with
  | EndOfString =>
      rest = EmptyString \/ exists ch r, rest = String ch r /\ classify ch = Nul
  | Overflow => exists ch r, rest = String ch r /\ classify ch = Digit
  | Unrecognized => exists ch r, rest = String ch r /\ classify ch = Other
  end.

(** ** The selection of a rule as the specification words it *)

(** Density symbol: 1 when the number of set bits exceeds 32. *)
Definition spec_density (w : Z) : Z := if 32 <? bit_count w then 1 else 0.

(** Lookup and OR over the eight patterns: pattern [i] contributes a 1
    when the context equals [i] and bit [i] of the rule byte is set. *)
Definition spec_lookup_or (rule ctx : Z) : Z :=
  fold_left
    (fun acc i => Z.lor acc (if (ctx =? i) && Z.testbit rule i then 1 else 0))
    patterns 0.

Definition select_rule (meta_rule left_word center_word right_word : Z)
    (rule_set : list Z) : Z :=
  let ctx := 4 * spec_density left_word + 2 * spec_density center_word
             + spec_density right_word in
  rule_set !!! Z.to_nat (spec_lookup_or meta_rule ctx).

(** ** The neighbourhood as the specification words it *)

(** A bit numbering sends the number of a bit to its significance. *)
Definition lsb_first (k : Z) : Z := k.
Definition msb_first (k : Z) : Z := 63 - k.

(** "bit k+1 of center_word, with bit 0 of left_word supplying the
    carry when k is the most-significant bit" *)
Definition stated_left (idx : Z -> Z) (left_word center_word k : Z) : bool :=
  if idx k =? 63 then Z.testbit left_word (idx 0)
  else Z.testbit center_word (idx (k + 1)).

(** "bit k-1 of center_word, with the least-significant bit of
    right_word supplying the carry when k is the least-significant
    bit" *)
Definition stated_right (idx : Z -> Z) (center_word right_word k : Z) : bool :=
  if idx k =? 0 then Z.testbit right_word 0
  else Z.testbit center_word (idx (k - 1)).

Definition is_word (w : Z) : Prop := 0 <= w < 2 ^ 64.

Definition neighbourhood_as_stated (idx : Z -> Z) : Prop :=
  forall c_prev c c_next k,
    is_word c_prev -> is_word c -> is_word c_next -> 0 <= k < 64 ->
    Z.testbit (left_cells c_prev c) (idx k) = stated_left idx c_prev c k /\
    Z.testbit (right_cells c c_next) (idx k) = stated_right idx c c_next k.

(** ** Packed fields, for the analysis of [pop_count] *)

(** The number whose consecutive [s]-bit fields, from the least
    significant one, hold the numbers [fs]. *)
Fixpoint pack (s : Z) (fs : list Z) : Z :=
  match fs with
  | [] => 0
  | f :: fs' => f + 2 ^ s * pack s fs'
  end.

(** The fields at even positions. *)
Fixpoint evens (fs : list Z) : list Z :=
  match fs with
  | [] => []
  | a :: r => a :: match r with [] => [] | _ :: r' => evens r' end
  end.

(** The sums of adjacent fields. *)
Fixpoint sum_pairs (fs : list Z) : list Z :=
  match fs with
  | [] => []
  | a :: r => match r with [] => [a] | b :: r' => (a + b) :: sum_pairs r' end
  end.

(** [m] fields of width [2 * s], each with its low [s] bits set. *)
Definition field_mask (s : Z) (m : nat) : Z := pack (2 * s) (replicate m (2 ^ s - 1)).

(** The low [n] bits of [w], least significant first. *)
Fixpoint bits_of (n : nat) (w : Z) : list Z :=
  match n with
  | O => []
  | S n' => Z.b2z (Z.testbit w 0) :: bits_of n' (Z.div2 w)
  end.

Definition zsum (fs : list Z) : Z := fold_right Z.add 0 fs.

(** All fields lie in [0, t]. *)
Definition fields_le (t : Z) (fs : list Z) : Prop := Forall (fun f => 0 <= f <= t) fs.

(** [fs] is a row of [m] fields, each at most [s], that add up to [total]. *)
Definition level (s : Z) (m : nat) (total : Z) (fs : list Z) : Prop :=
  length fs = m /\ fields_le s fs /\ zsum fs = total.

(** ** Rows, for the analysis of the row updates and of the run *)

(** The loop shared by the two row updates, over the word [f i] that
    is stored at column [i]. *)
Fixpoint word_loop (w : nat) (f : nat -> Z) (fuel i : nat) (next : list Z)
    : nat * list Z :=
  match fuel with
  | O => (i, next)
  | S fuel' =>
      if (i <? w - 1)%nat
      then word_loop w f fuel' (i + 1) (<[i := f i]> next)
      else (i, next)
  end.

(** The body shared by the two row updates: the store at column 0,
    the loop, the early return and the store at the last column. *)
Definition word_row (w : nat) (first : Z) (f last : nat -> Z) (next : list Z)
    : list Z :=
  let next := <[0%nat := first]> next in
  let '(i, next) := word_loop w f w 1 next in
  if (w <=? i)%nat then next else <[i := last i]> next.

(** The row whose column [i] holds the rule [sel i] applied to the
    toroidal neighbourhood of column [i] of [cur], with carry [prev]. *)
Definition row_of (w : nat) (sel : nat -> Z) (prev cur : list Z) : list Z :=
  map (fun i : nat =>
         ca1d_rule_apply (sel i)
           (cur !!! left_col w i) (cur !!! i) (cur !!! right_col w i)
           (prev !!! i))
      (seq 0 w).

(** The row a run computes from the carry row [prev] and the row [cur]. *)
Definition next_row (g : globals) (prev cur : list Z) : list Z :=
  row_of (width g) (rule_used g cur) prev cur.

(** A matrix of [height] rows of [width] words. *)
Definition well_formed (g : globals) (steps : list (list Z)) : Prop :=
  length steps = height g /\ Forall (fun row => length row = width g) steps.

(** ** Allocation *)

(** [1UL << (63 - (width * 32) % 64)], the product taken in [size_t]. *)
Definition centre_bit (width : nat) : Z :=
  u64 (Z.shiftl 1 (63 - u64 (Z.of_nat width * 32) mod 64)).

(** [ca1d_allocate]: the rows [init] and [zeroes] and the matrix
    [steps], in this order.  [gp_vec_new] and [gp_matrix_new] hand out
    zeroed storage, on which the code relies for [zeroes] and for the
    words of [init] it does not set. *)
Definition ca1d_allocate (g : globals) : list Z * list Z * list (list Z) :=
  let init := <[(width g / 2)%nat := centre_bit (width g)]> (replicate (width g) 0) in
  let zeroes := replicate (width g) 0 in
  let steps := replicate (height g) (replicate (width g) 0) in
  (init, zeroes, steps).

(** ** Sampling *)

Definition u32 (z : Z) : Z := z mod 2 ^ 32.

(** [shade_pixel] from the values [i] and [j] of its two locals, that
    is past the conversions from [float], which are not modelled:
    [k = 63 - (i & 63)], the word [steps[gp_matrix_idx(width, j, i >> 6)]],
    that is word [i >> 6] of row [j], and the [gp_pixel]
    [(fg & c) | (bg & ~c)] handed to [gp_putpixel_raw]. *)
Definition shade_pixel (steps : list (list Z)) (i j bg fg : Z) : Z :=
  let k := 63 - Z.land i 63 in
  let c := (steps !!! Z.to_nat j) !!! Z.to_nat (Z.shiftr i 6) in
  let c := BIT_TO_MAX c k in
  u32 (Z.lor (Z.land fg c) (Z.land bg (not64 c))).

(** The cell of a row that [shade_pixel] shows at bit index [p]. *)
Definition cell (row : list Z) (p : Z) : bool :=
  Z.testbit (row !!! Z.to_nat (Z.shiftr p 6)) (63 - Z.land p 63).

(** The neighbours of cell [p] on a ring of [n] cells. *)
Definition ring_left (n p : Z) : Z := (p + n - 1) mod n.
Definition ring_right (n p : Z) : Z := (p + 1) mod n.

(** [allocate_backing_pixmap]: [l = w & 63 ? w + 64 - (w & 63) : w] on
    the [unsigned int] width of the widget. *)
Definition backing_width (w : Z) : Z :=
  if Z.land w 63 =? 0 then w else u32 (u32 (w + 64) - Z.land w 63).

(** ** The filter of the rule text box *)


(** ** Rule strings *)

Fixpoint string_forall (P : ascii -> bool) (s : string) : bool :=
  match s with
  | EmptyString => true
  | String ch s' => P ch && string_forall P s'
  end.

Definition is_digit (ch : ascii) : bool := (48 <=? code ch) && (code ch <=? 57).

(** The number a string of decimal digits denotes, after the digits
    already read into [acc]. *)
Fixpoint number_of (acc : Z) (s : string) : Z :=
  match s with
  | EmptyString => acc
  | String ch s' => number_of (acc * 10 + (code ch - 48)) s'
  end.

Definition value (s : string) : Z := number_of 0 s.

(** The fields joined by the character [sep]. *)
Fixpoint join (sep : ascii) (fields : list string) : string :=
  match fields with
  | [] => EmptyString
  | f :: fs =>
      match fs with
      | [] => f
      | _ :: _ => String.append f (String sep (join sep fs))
      end
  end.

(** A field of a well-formed rule string: digits that denote a byte. *)
Definition byte_field (f : string) : Prop :=
  string_forall is_digit f = true /\ value f <= 255.

(** [g] with another height. *)
Definition with_height (g : globals) (h : nat) : globals :=
  Globals (width g) h (rule_n g) (rules g) (reversible g) (meta_rule g).


(** ** The engine with a single rule *)

(** The second engine of the sources: one global [rule], no rule list
    and no meta rule. *)
Module SingleRule.

Definition ca1d_rule_apply (rule c_prev c c_next c_prev_step : Z) : Z :=
  let l := Z.lxor (Z.shiftr c 1) (u64 (Z.shiftl c_prev 63)) in
  let r := Z.lxor (u64 (Z.shiftl c 1)) (Z.shiftr c_next 63) in
  let c_next_step :=
    fold_left
      (fun acc i =>
         let active := BIT_TO_MAX rule i in
         let left   := BIT_TO_MAX i 2 in
         let center := BIT_TO_MAX i 1 in
         let right  := BIT_TO_MAX i 0 in
         Z.lor acc
           (Z.land (Z.land (Z.land active (not64 (Z.lxor left l)))
                           (not64 (Z.lxor center c)))
                   (not64 (Z.lxor right r))))
      patterns 0 in
  Z.lxor c_next_step c_prev_step.

Fixpoint row_loop (width : nat) (rule : Z) (fuel : nat) (prev cur : list Z)
    (i : nat) (next : list Z) : nat * list Z :=
  match fuel with
  | O => (i, next)
  | S fuel' =>
      if (i <? width - 1)%nat then
        row_loop width rule fuel' prev cur (i + 1)
          (<[i := ca1d_rule_apply rule (cur !!! (i - 1)%nat) (cur !!! i)
                    (cur !!! (i + 1)%nat) (prev !!! i)]> next)
      else (i, next)
  end.

Definition ca1d_rule_apply_row (width : nat) (rule : Z) (prev cur next : list Z)
    : list Z :=
  let next :=
    <[0%nat := ca1d_rule_apply rule (cur !!! (width - 1)%nat) (cur !!! 0%nat)
                 (cur !!! GP_MIN 1 (width - 1)) (prev !!! 0%nat)]> next in
  let '(i, next) := row_loop width rule width prev cur 1 next in
  if (width <=? i)%nat then next
  else
    <[i := ca1d_rule_apply rule (cur !!! (i - 1)%nat) (cur !!! i)
              (cur !!! 0%nat) (prev !!! i)]> next.

Definition row_of_ptr (width : nat) (steps : list (list Z)) (p : rowptr) : list Z :=
  match p with
  | Zeroes => replicate width 0
  | StepsRow i => steps !!! i
  end.

Fixpoint run_loop (width height : nat) (rule reversible : Z) (fuel : nat)
    (steps : list (list Z)) (prev cur : rowptr) (next i : nat)
    : list (list Z) :=
  match fuel with
  | O => steps
  | S fuel' =>
      let steps :=
        <[next := ca1d_rule_apply_row width rule
                    (row_of_ptr width steps prev) (row_of_ptr width steps cur)
                    (steps !!! next)]> steps in
      let i := (i + 1)%nat in
      if (height <=? i)%nat then steps
      else
        run_loop width height rule reversible fuel' steps
          (if reversible =? 0 then Zeroes else cur) (StepsRow next) i i
  end.

Definition ca1d_run (width height : nat) (rule reversible : Z)
    (init : list Z) (steps : list (list Z)) : list (list Z) :=
  let steps := <[0%nat := take width init]> steps in
  run_loop width height rule reversible (S height) steps Zeroes (StepsRow 0) 1 1.

End SingleRule.

(** [m] is the matrix of a run from the row [row0]: row 0 is [row0]
    and every later row is the next row of the row before it, with
    the carry row of [carry_row]. *)
Definition run_of (g : globals) (row0 : list Z) (m : list (list Z)) : Prop :=
  well_formed g m /\
  m !!! 0%nat = row0 /\
  forall k, (1 <= k < height g)%nat ->
    m !!! k = next_row g (carry_row g m k) (m !!! (k - 1)%nat).

(** The table after the numbers [vs] are stored from index [k] on. *)
Fixpoint store_all (k : nat) (vs : list Z) (rules : list Z) : list Z :=
  match vs with
  | [] => rules
  | v :: vs' => store_all (S k) vs' (<[k := v]> rules)
  end.

(** * Properties *)

(** ** Bits of machine words *)

Section Bits.

Lemma u64_range z : 0 <= u64 z < 2 ^ 64.
Proof. unfold u64. apply Z.mod_pos_bound. reflexivity. Qed.

Lemma u64_small z : 0 <= z < 2 ^ 64 -> u64 z = z.
Proof. intros H. unfold u64. apply Z.mod_small; assumption. Qed.

Lemma testbit_u64 z k : 0 <= k < 64 -> Z.testbit (u64 z) k = Z.testbit z k.
Proof. intros H. unfold u64. apply Z.mod_pow2_bits_low. lia. Qed.

Lemma testbit_u64_high z k : 64 <= k -> Z.testbit (u64 z) k = false.
Proof. intros H. unfold u64. apply Z.mod_pow2_bits_high. lia. Qed.

Lemma testbit_word_high w k : 0 <= w < 2 ^ 64 -> 64 <= k -> Z.testbit w k = false.
Proof. intros Hw Hk. rewrite <- (u64_small w Hw). apply testbit_u64_high, Hk. Qed.

Lemma testbit_not64 x k : 0 <= k < 64 -> Z.testbit (not64 x) k = negb (Z.testbit x k).
Proof.
  intros H. unfold not64. rewrite testbit_u64 by assumption.
  apply Z.lnot_spec. lia.
Qed.

Lemma land_1_b2z x : Z.land x 1 = Z.b2z (Z.testbit x 0).
Proof.
  change 1 with (Z.ones 1). rewrite Z.land_ones by lia.
  rewrite <- Z.bit0_mod. reflexivity.
Qed.

Lemma bit_of_shift b n : 0 <= n -> Z.land (Z.shiftr b n) 1 = Z.b2z (Z.testbit b n).
Proof.
  intros Hn. rewrite land_1_b2z, Z.shiftr_spec by lia. reflexivity.
Qed.

(** [BIT_TO_MAX(b, n)] is all ones when bit [n] of [b] is set, else 0. *)
Lemma BIT_TO_MAX_cases b n :
  0 <= n -> BIT_TO_MAX b n = if Z.testbit b n then 2 ^ 64 - 1 else 0.
Proof.
  intros Hn. unfold BIT_TO_MAX. rewrite bit_of_shift by assumption.
  destruct (Z.testbit b n); reflexivity.
Qed.

Lemma testbit_BIT_TO_MAX b n k :
  0 <= n -> 0 <= k < 64 -> Z.testbit (BIT_TO_MAX b n) k = Z.testbit b n.
Proof.
  intros Hn Hk. rewrite BIT_TO_MAX_cases by assumption.
  destruct (Z.testbit b n).
  - change (2 ^ 64 - 1) with (Z.ones 64). apply Z.ones_spec_low. lia.
  - apply Z.bits_0.
Qed.

Lemma BIT_TO_MAX_range b n : 0 <= BIT_TO_MAX b n < 2 ^ 64.
Proof. apply u64_range. Qed.

(** A number whose bits from 64 on are clear is a word. *)
Lemma word_of_bits x :
  0 <= x -> (forall k, 64 <= k -> Z.testbit x k = false) -> 0 <= x < 2 ^ 64.
Proof.
  intros H0 Hb. split; [assumption|].
  destruct (Z.eq_dec x 0) as [->|Hne]; [reflexivity|].
  assert (Hpos : 0 < x) by lia.
  apply Z.log2_lt_pow2; [assumption|].
  destruct (Z_lt_le_dec (Z.log2 x) 64) as [Hlt|Hge]; [assumption|].
  specialize (Hb (Z.log2 x) Hge).
  rewrite Z.bit_log2 in Hb by assumption. discriminate.
Qed.

Lemma land_word_l a b : 0 <= a < 2 ^ 64 -> 0 <= b -> 0 <= Z.land a b < 2 ^ 64.
Proof.
  intros Ha Hb. apply word_of_bits.
  - apply Z.land_nonneg. lia.
  - intros k Hk. rewrite Z.land_spec, (testbit_word_high a k) by assumption.
    reflexivity.
Qed.

Lemma lor_word a b :
  0 <= a < 2 ^ 64 -> 0 <= b < 2 ^ 64 -> 0 <= Z.lor a b < 2 ^ 64.
Proof.
  intros Ha Hb. apply word_of_bits.
  - apply Z.lor_nonneg. lia.
  - intros k Hk.
    rewrite Z.lor_spec, (testbit_word_high a k), (testbit_word_high b k)
      by assumption.
    reflexivity.
Qed.

Lemma lxor_word a b :
  0 <= a < 2 ^ 64 -> 0 <= b < 2 ^ 64 -> 0 <= Z.lxor a b < 2 ^ 64.
Proof.
  intros Ha Hb. apply word_of_bits.
  - apply Z.lxor_nonneg. lia.
  - intros k Hk.
    rewrite Z.lxor_spec, (testbit_word_high a k), (testbit_word_high b k)
      by assumption.
    reflexivity.
Qed.

End Bits.

(** ** Rule application *)

Section RuleApply.

Variables rule l c r : Z.

Lemma pattern_at_range k : 0 <= pattern_at l c r k <= 7.
Proof.
  unfold pattern_at.
  destruct (Z.testbit l k), (Z.testbit c k), (Z.testbit r k); simpl; lia.
Qed.

(** Bit [k] of the contribution of pattern [i]. *)
Lemma testbit_rule_term i k :
  0 <= i -> 0 <= k < 64 ->
  Z.testbit (rule_term rule l c r i) k =
    Z.testbit rule i
    && negb (xorb (Z.testbit i 2) (Z.testbit l k))
    && negb (xorb (Z.testbit i 1) (Z.testbit c k))
    && negb (xorb (Z.testbit i 0) (Z.testbit r k)).
Proof.
  intros Hi Hk. unfold rule_term.
  rewrite !Z.land_spec, !testbit_not64, !Z.lxor_spec by assumption.
  rewrite !testbit_BIT_TO_MAX by lia.
  reflexivity.
Qed.

Lemma rule_term_range i : 0 <= rule_term rule l c r i < 2 ^ 64.
Proof.
  unfold rule_term.
  pose proof (BIT_TO_MAX_range rule i) as Ha.
  pose proof (u64_range (Z.lnot (Z.lxor (BIT_TO_MAX i 2) l))) as H2.
  pose proof (u64_range (Z.lnot (Z.lxor (BIT_TO_MAX i 1) c))) as H1.
  pose proof (u64_range (Z.lnot (Z.lxor (BIT_TO_MAX i 0) r))) as H0.
  fold (not64 (Z.lxor (BIT_TO_MAX i 2) l)) in H2.
  fold (not64 (Z.lxor (BIT_TO_MAX i 1) c)) in H1.
  fold (not64 (Z.lxor (BIT_TO_MAX i 0) r)) in H0.
  apply land_word_l; [|lia]. apply land_word_l; [|lia].
  apply land_word_l; [assumption|lia].
Qed.

(** The loop is the OR of the eight contributions. *)
Lemma rule_lookup_unfold :
  rule_lookup rule l c r =
    Z.lor (Z.lor (Z.lor (Z.lor (Z.lor (Z.lor (Z.lor (Z.lor 0
      (rule_term rule l c r 0)) (rule_term rule l c r 1))
      (rule_term rule l c r 2)) (rule_term rule l c r 3))
      (rule_term rule l c r 4)) (rule_term rule l c r 5))
      (rule_term rule l c r 6)) (rule_term rule l c r 7).
Proof. reflexivity. Qed.

Lemma rule_lookup_range : 0 <= rule_lookup rule l c r < 2 ^ 64.
Proof.
  rewrite rule_lookup_unfold.
  repeat (apply lor_word; [|apply rule_term_range]). lia.
Qed.

Lemma testbit_rule_term_pattern i k :
  0 <= i <= 7 -> 0 <= k < 64 ->
  Z.testbit (rule_term rule l c r i) k =
    (pattern_at l c r k =? i) && Z.testbit rule i.
Proof.
  intros Hi Hk. rewrite testbit_rule_term by lia. unfold pattern_at.
  assert (Hc : i = 0 \/ i = 1 \/ i = 2 \/ i = 3 \/ i = 4 \/ i = 5 \/ i = 6 \/ i = 7)
    by lia.
  generalize (Z.testbit rule i); intros b;
    destruct Hc as [->|[->|[->|[->|[->|[->|[->| ->]]]]]]];
    destruct (Z.testbit l k), (Z.testbit c k), (Z.testbit r k), b;
    reflexivity.
Qed.

Lemma testbit_rule_lookup k :
  0 <= k < 64 ->
  Z.testbit (rule_lookup rule l c r) k = Z.testbit rule (pattern_at l c r k).
Proof.
  intros Hk. rewrite rule_lookup_unfold.
  rewrite !Z.lor_spec, Z.bits_0, !testbit_rule_term_pattern by lia.
  unfold pattern_at.
  destruct (Z.testbit l k), (Z.testbit c k), (Z.testbit r k); cbn;
    rewrite ?orb_false_r; reflexivity.
Qed.

End RuleApply.

Lemma ca1d_rule_apply_unfold rule c_prev c c_next carry :
  ca1d_rule_apply rule c_prev c c_next carry =
    Z.lxor (rule_lookup rule (left_cells c_prev c) c (right_cells c c_next)) carry.
Proof. reflexivity. Qed.

Lemma ca1d_rule_apply_range rule c_prev c c_next carry :
  0 <= carry < 2 ^ 64 ->
  0 <= ca1d_rule_apply rule c_prev c c_next carry < 2 ^ 64.
Proof.
  intros Hc. rewrite ca1d_rule_apply_unfold.
  apply lxor_word; [apply rule_lookup_range|assumption].
Qed.

(** C1.  For every rule byte, neighbour words and carry word,
    [ca1d_rule_apply] returns the OR of the eight per-pattern
    contributions XORed with the carry word: the contribution of
    pattern [i] has bit [k] set exactly when the neighbourhood at [k]
    (left cell in bit 2, centre in bit 1, right in bit 0) equals [i]
    and bit [i] of the rule is set, so bit [k] of the OR is bit
    (neighbourhood at [k]) of the rule, and bit [k] of the result is
    that bit XOR bit [k] of the carry word. *)
Theorem ca1d_rule_apply_lookup_xor :
  forall rule c_prev c c_next carry k,
    0 <= k < 64 ->
    let l := left_cells c_prev c in
    let r := right_cells c c_next in
    (forall i, 0 <= i <= 7 ->
       Z.testbit (rule_term rule l c r i) k =
         (pattern_at l c r k =? i) && Z.testbit rule i) /\
    rule_lookup rule l c r =
      fold_left Z.lor (map (rule_term rule l c r) [0; 1; 2; 3; 4; 5; 6; 7]) 0 /\
    Z.testbit (rule_lookup rule l c r) k = Z.testbit rule (pattern_at l c r k) /\
    ca1d_rule_apply rule c_prev c c_next carry =
      Z.lxor (rule_lookup rule l c r) carry /\
    Z.testbit (ca1d_rule_apply rule c_prev c c_next carry) k =
      xorb (Z.testbit rule (pattern_at l c r k)) (Z.testbit carry k).
Proof.
  intros rule c_prev c c_next carry k Hk l r.
  split; [|split; [|split; [|split]]].
  - intros i Hi. apply testbit_rule_term_pattern; assumption.
  - reflexivity.
  - apply testbit_rule_lookup, Hk.
  - reflexivity.
  - rewrite ca1d_rule_apply_unfold, Z.lxor_spec.
    fold l r. rewrite testbit_rule_lookup by assumption. reflexivity.
Qed.

Lemma ca1d_rule_apply_lookup_xor_witness :
  Z.testbit (ca1d_rule_apply 110 0 1 0 0) 1 =
    xorb (Z.testbit 110 (pattern_at (left_cells 0 1) 1 (right_cells 1 0) 1))
         (Z.testbit 0 1).
Proof.
  apply (ca1d_rule_apply_lookup_xor 110 0 1 0 0 1). lia.
Defined.

(** ** The neighbourhood of a cell *)

Section Neighbourhood.

Lemma testbit_left_cells c_prev c k :
  is_word c -> 0 <= k < 64 ->
  Z.testbit (left_cells c_prev c) k =
    if k =? 63 then Z.testbit c_prev 0 else Z.testbit c (k + 1).
Proof.
  intros Hc Hk. unfold left_cells.
  rewrite Z.lxor_spec, Z.shiftr_spec, testbit_u64, Z.shiftl_spec by lia.
  destruct (Z.eqb_spec k 63) as [->|Hne].
  - rewrite (testbit_word_high c) by (assumption || lia). reflexivity.
  - rewrite (Z.testbit_neg_r c_prev) by lia. apply xorb_false_r.
Qed.

Lemma testbit_right_cells c c_next k :
  is_word c_next -> 0 <= k < 64 ->
  Z.testbit (right_cells c c_next) k =
    if k =? 0 then Z.testbit c_next 63 else Z.testbit c (k - 1).
Proof.
  intros Hc Hk. unfold right_cells.
  rewrite Z.lxor_spec, Z.shiftr_spec, testbit_u64, Z.shiftl_spec by lia.
  destruct (Z.eqb_spec k 0) as [->|Hne].
  - rewrite (Z.testbit_neg_r c) by lia. reflexivity.
  - rewrite (testbit_word_high c_next) by (assumption || lia).
    apply xorb_false_r.
Qed.

End Neighbourhood.

(** C5, as stated, fails.  With bit 0 the least significant bit (the
    only numbering in which bit k+1 runs out at the most significant
    bit), the right neighbour of the least significant cell is not the
    least significant bit of the right word: for a centre word 0 and a
    right word 1 the code sees a right neighbour 0.  With bit 0 the
    most significant bit, as the parenthesis of the sentence has it, the left
    neighbour of bit 62 of the centre word 1 is not its bit 63. *)
Lemma neighbourhood_as_stated_fails :
  ~ neighbourhood_as_stated lsb_first /\ ~ neighbourhood_as_stated msb_first.
Proof.
  split; intros H.
  - destruct (H 0 0 1 0) as [_ Hr]; unfold is_word; try lia.
    vm_compute in Hr. discriminate.
  - destruct (H 0 1 0 62) as [Hl _]; unfold is_word; try lia.
    vm_compute in Hl. discriminate.
Qed.

(** C5, amended.  With bit 0 the least significant bit: the left
    neighbour of cell [k] is bit [k+1] of the centre word, and bit 0 of
    the left word when [k] is the most significant bit; the centre
    cell is bit [k]; the right neighbour is bit [k-1] of the centre
    word, and the most significant bit (bit 63) of the right word when
    [k] is the least significant bit.  The same facts are stated with
    bit 0 the most significant bit: the left neighbour of bit [j] is
    bit [j-1], the right neighbour is bit [j+1]. *)
Theorem neighbourhood_bits :
  forall c_prev c c_next k,
    is_word c_prev -> is_word c -> is_word c_next -> 0 <= k < 64 ->
    let l := left_cells c_prev c in
    let r := right_cells c c_next in
    Z.testbit l k = (if k =? 63 then Z.testbit c_prev 0 else Z.testbit c (k + 1)) /\
    Z.testbit r k = (if k =? 0 then Z.testbit c_next 63 else Z.testbit c (k - 1)) /\
    pattern_at l c r k =
      4 * Z.b2z (if k =? 63 then Z.testbit c_prev 0 else Z.testbit c (k + 1))
      + 2 * Z.b2z (Z.testbit c k)
      + Z.b2z (if k =? 0 then Z.testbit c_next 63 else Z.testbit c (k - 1)) /\
    Z.testbit l (msb_first k) =
      (if k =? 0 then Z.testbit c_prev (msb_first 63)
       else Z.testbit c (msb_first (k - 1))) /\
    Z.testbit r (msb_first k) =
      (if k =? 63 then Z.testbit c_next (msb_first 0)
       else Z.testbit c (msb_first (k + 1))).
Proof.
  intros c_prev c c_next k Hp Hc Hn Hk l r. subst l r.
  split; [|split; [|split; [|split]]].
  - apply testbit_left_cells; assumption.
  - apply testbit_right_cells; assumption.
  - unfold pattern_at.
    rewrite testbit_left_cells, testbit_right_cells by assumption.
    reflexivity.
  - unfold msb_first. rewrite testbit_left_cells by (assumption || lia).
    destruct (Z.eqb_spec k 0) as [->|Hne]; [reflexivity|].
    destruct (Z.eqb_spec (63 - k) 63); [lia|].
    f_equal. lia.
  - unfold msb_first. rewrite testbit_right_cells by (assumption || lia).
    destruct (Z.eqb_spec k 63) as [->|Hne]; [reflexivity|].
    destruct (Z.eqb_spec (63 - k) 0); [lia|].
    f_equal. lia.
Qed.

Lemma neighbourhood_bits_witness :
  Z.testbit (right_cells 0 (2 ^ 63)) 0 =
    (if 0 =? 0 then Z.testbit (2 ^ 63) 63 else Z.testbit 0 (0 - 1)).
Proof.
  apply (neighbourhood_bits 0 0 (2 ^ 63) 0); unfold is_word; lia.
Defined.

(** ** Population count *)

Section PopCount.

Lemma testbit_cat n lo hi k :
  0 <= n -> 0 <= lo < 2 ^ n -> 0 <= k ->
  Z.testbit (lo + 2 ^ n * hi) k =
    if k <? n then Z.testbit lo k else Z.testbit hi (k - n).
Proof.
  intros Hn Hlo Hk. destruct (Z.ltb_spec k n) as [Hlt|Hge].
  - rewrite <- (Z.mod_pow2_bits_low (lo + 2 ^ n * hi) n k) by lia.
    rewrite (Z.mul_comm (2 ^ n) hi), Z.mod_add by lia.
    rewrite Z.mod_small by assumption. reflexivity.
  - replace k with ((k - n) + n) at 1 by lia.
    rewrite <- Z.div_pow2_bits by lia.
    rewrite (Z.mul_comm (2 ^ n) hi), Z.div_add by lia.
    rewrite Z.div_small by assumption. reflexivity.
Qed.

Lemma land_cat n lo hi lo' hi' :
  0 <= n -> 0 <= lo < 2 ^ n -> 0 <= lo' < 2 ^ n ->
  Z.land (lo + 2 ^ n * hi) (lo' + 2 ^ n * hi') =
    Z.land lo lo' + 2 ^ n * Z.land hi hi'.
Proof.
  intros Hn Hlo Hlo'.
  assert (Hl : 0 <= Z.land lo lo' < 2 ^ n).
  { split; [apply Z.land_nonneg; lia|].
    destruct (Z.eq_dec (Z.land lo lo') 0) as [->|Hne]; [lia|].
    assert (0 <= Z.land lo lo') by (apply Z.land_nonneg; lia).
    apply Z.log2_lt_pow2; [lia|].
    destruct (Z.eq_dec lo 0) as [->|Hlo0]; [rewrite Z.land_0_l in Hne; lia|].
    assert (Z.log2 lo < n) by (apply Z.log2_lt_pow2; lia).
    pose proof (Z.log2_land lo lo' ltac:(lia) ltac:(lia)). lia. }
  apply Z.bits_inj'. intros k Hk.
  rewrite Z.land_spec, !testbit_cat by assumption.
  destruct (k <? n); [rewrite Z.land_spec|rewrite Z.land_spec]; reflexivity.
Qed.

Lemma pow2_gt s : 0 <= s -> s < 2 ^ s.
Proof. intros Hs. apply Z.pow_gt_lin_r; lia. Qed.

Lemma pack_nonneg s fs t : fields_le t fs -> 0 <= pack s fs.
Proof.
  induction 1 as [|f fs Hf _ IH]; simpl; [lia|].
  assert (0 <= 2 ^ s) by (apply Z.pow_nonneg; lia). nia.
Qed.

Lemma pack_bound s fs t :
  0 <= s -> t < 2 ^ s -> fields_le t fs ->
  pack s fs < 2 ^ (s * Z.of_nat (length fs)).
Proof.
  intros Hs Ht. induction 1 as [|f fs Hf Hfs IH]; simpl pack.
  - simpl. rewrite Z.mul_0_r. simpl. lia.
  - rewrite length_cons, Nat2Z.inj_succ, Z.mul_succ_r, Z.add_comm.
    rewrite Z.pow_add_r by lia.
    assert (0 <= pack s fs) by (eapply pack_nonneg; eassumption).
    assert (0 < 2 ^ s) by (apply Z.pow_pos_nonneg; lia).
    nia.
Qed.

Lemma field_mask_S s m :
  field_mask s (S m) = (2 ^ s - 1) + 2 ^ (2 * s) * field_mask s m.
Proof. reflexivity. Qed.

(** Masking keeps the fields at even positions. *)
Lemma land_field_mask s m : forall fs,
  0 <= s -> fields_le s fs -> (length fs <= 2 * m)%nat ->
  Z.land (pack s fs) (field_mask s m) = pack (2 * s) (evens fs).
Proof.
  induction m as [|m IH]; intros fs Hs Hfs Hlen.
  - destruct fs; [reflexivity|simpl in Hlen; lia].
  - assert (Hp : 0 < 2 ^ s) by (apply Z.pow_pos_nonneg; lia).
    assert (H2 : 2 ^ (2 * s) = 2 ^ s * 2 ^ s).
    { rewrite <- Z.pow_add_r by lia. f_equal. lia. }
    pose proof (pow2_gt s Hs) as Hgt.
    rewrite field_mask_S.
    destruct fs as [|a [|b r]].
    + simpl. apply Z.land_0_l.
    + inversion Hfs as [|? ? Ha _]; subst. simpl pack.
      replace (a + 2 ^ s * 0) with (a + 2 ^ (2 * s) * 0) by lia.
      rewrite land_cat by nia.
      change (2 ^ s - 1) with (Z.pred (2 ^ s)). rewrite <- Z.ones_equiv.
      rewrite Z.land_ones, Z.mod_small by lia.
      rewrite Z.land_0_l. reflexivity.
    + inversion Hfs as [|? ? Ha Hfs']; subst.
      inversion Hfs' as [|? ? Hb Hr]; subst.
      simpl pack.
      replace (a + 2 ^ s * (b + 2 ^ s * pack s r))
        with ((a + 2 ^ s * b) + 2 ^ (2 * s) * pack s r) by nia.
      rewrite land_cat by nia.
      rewrite IH by (try assumption; simpl in Hlen; lia).
      change (2 ^ s - 1) with (Z.pred (2 ^ s)). rewrite <- Z.ones_equiv.
      rewrite Z.land_ones by lia.
      rewrite (Z.mul_comm (2 ^ s) b), Z.mod_add, Z.mod_small by lia.
      reflexivity.
Qed.

Lemma shiftr_pack s a r :
  0 <= s -> 0 <= a < 2 ^ s -> Z.shiftr (pack s (a :: r)) s = pack s r.
Proof.
  intros Hs Ha. simpl pack. rewrite Z.shiftr_div_pow2 by assumption.
  rewrite (Z.mul_comm (2 ^ s) (pack s r)), Z.div_add by lia.
  rewrite Z.div_small by assumption. reflexivity.
Qed.

Lemma pack_evens_add s : forall fs,
  (pack s (evens fs) + pack s (evens (tl fs)) = pack s (sum_pairs fs)) /\
  (forall x, pack s (evens (x :: fs)) + pack s (evens fs) = pack s (sum_pairs (x :: fs))).
Proof.
  induction fs as [|a r [IH1 IH2]].
  - split; [reflexivity|]. intros x. simpl. lia.
  - split; [apply IH2|].
    intros x. simpl evens. simpl sum_pairs. simpl pack.
    simpl in IH1. destruct r as [|b r'].
    + simpl. lia.
    + simpl in IH1. simpl evens. simpl pack. simpl pack in IH1.
      specialize (IH2 b). simpl in IH2. nia.
Qed.

Lemma list_pairs_ind (P : list Z -> Prop) :
  P [] -> (forall a, P [a]) -> (forall a b r, P r -> P (a :: b :: r)) ->
  forall fs, P fs.
Proof.
  intros H0 H1 H2.
  assert (H : forall fs, P fs /\ forall x, P (x :: fs)).
  { induction fs as [|a r [IHa IHb]]; split; auto. }
  intros fs. apply H.
Qed.

Lemma zsum_cons a fs : zsum (a :: fs) = a + zsum fs.
Proof. reflexivity. Qed.

Lemma zsum_sum_pairs fs : zsum (sum_pairs fs) = zsum fs.
Proof.
  induction fs as [|a|a b r IH] using list_pairs_ind; try reflexivity.
  change (sum_pairs (a :: b :: r)) with ((a + b) :: sum_pairs r).
  rewrite !zsum_cons, IH. lia.
Qed.

Lemma fields_le_sum_pairs t fs :
  0 <= t -> fields_le t fs -> fields_le (2 * t) (sum_pairs fs).
Proof.
  intros Ht. unfold fields_le.
  induction fs as [|a|a b r IH] using list_pairs_ind; intros Hfs; simpl.
  - constructor.
  - inversion Hfs; subst. constructor; [lia|constructor].
  - inversion Hfs as [|? ? Ha Hfs']; subst.
    inversion Hfs' as [|? ? Hb Hr]; subst.
    constructor; [lia|]. apply IH, Hr.
Qed.

Lemma length_sum_pairs fs m :
  length fs = (2 * m)%nat -> length (sum_pairs fs) = m.
Proof.
  revert m.
  induction fs as [|a|a b r IH] using list_pairs_ind; intros m Hlen;
    simpl in *.
  - lia.
  - lia.
  - destruct m as [|m]; [lia|]. f_equal. apply IH. lia.
Qed.

Lemma level_sum_pairs s m total fs :
  0 <= s -> level s (2 * m) total fs -> level (2 * s) m total (sum_pairs fs).
Proof.
  intros Hs (Hlen & Hle & Hsum). split; [|split].
  - apply length_sum_pairs, Hlen.
  - apply fields_le_sum_pairs; assumption.
  - rewrite zsum_sum_pairs. exact Hsum.
Qed.

(** One turn of the loop adds adjacent fields. *)
Lemma pop_count_step_pack i s m total fs :
  0 < s ->
  Z.shiftl 1 (Z.of_nat i) = s ->
  nth i B 0 = field_mask s m ->
  2 * s * Z.of_nat m = 64 ->
  level s (2 * m) total fs ->
  pop_count_step (pack s fs) i = pack (2 * s) (sum_pairs fs).
Proof.
  intros Hs Hsh HB Hm Hlv.
  pose proof (level_sum_pairs s m total fs ltac:(lia) Hlv) as (Hlen' & Hle' & _).
  destruct Hlv as (Hlen & Hle & _).
  pose proof (pow2_gt s ltac:(lia)) as Hgt.
  unfold pop_count_step. rewrite Hsh, HB.
  destruct fs as [|a r]; [simpl in Hlen; lia|].
  pose proof (Forall_inv Hle) as Ha. pose proof (Forall_inv_tail Hle) as Hr.
  simpl in Ha. fold (fields_le s r) in Hr.
  rewrite shiftr_pack by lia.
  rewrite !land_field_mask by (try assumption; simpl in *; lia).
  rewrite Z.add_comm, (proj2 (pack_evens_add (2 * s) r) a).
  apply u64_small. split.
  - eapply pack_nonneg; eassumption.
  - replace 64 with (2 * s * Z.of_nat (length (sum_pairs (a :: r)))) by lia.
    apply (pack_bound (2 * s) _ (2 * s)); [lia| |assumption].
    pose proof (pow2_gt (2 * s) ltac:(lia)). lia.
Qed.

Lemma ones_below_div2 n w :
  ones_below (S n) w = Z.b2z (Z.testbit w 0) + ones_below n (Z.div2 w).
Proof.
  induction n as [|n IH].
  - simpl. lia.
  - change (ones_below (S (S n)) w)
      with (ones_below (S n) w + Z.b2z (Z.testbit w (Z.of_nat (S n)))).
    rewrite IH. simpl ones_below.
    rewrite (Z.div2_spec w), Z.shiftr_spec, Nat2Z.inj_succ by lia.
    rewrite <- Z.add_1_r. lia.
Qed.

Lemma zsum_bits_of n : forall w, zsum (bits_of n w) = ones_below n w.
Proof.
  induction n as [|n IH]; intros w; [reflexivity|].
  rewrite ones_below_div2. simpl bits_of. rewrite zsum_cons, IH. reflexivity.
Qed.

Lemma fields_le_bits_of n : forall w, fields_le 1 (bits_of n w).
Proof.
  induction n as [|n IH]; intros w; simpl bits_of; constructor; [|apply IH].
  match goal with |- context [Z.b2z ?b] => destruct b end; simpl Z.b2z; lia.
Qed.

Lemma length_bits_of n : forall w, length (bits_of n w) = n.
Proof. induction n as [|n IH]; intros w; simpl; [reflexivity|f_equal; apply IH]. Qed.

Lemma pack_bits_of n : forall w, pack 1 (bits_of n w) = w mod 2 ^ Z.of_nat n.
Proof.
  induction n as [|n IH]; intros w.
  - simpl. rewrite Z.mod_1_r. reflexivity.
  - simpl bits_of. simpl pack. rewrite IH.
    rewrite Nat2Z.inj_succ, Z.pow_succ_r by lia.
    rewrite Z.rem_mul_r by (try apply Z.pow_nonzero; lia).
    rewrite Z.div2_div, <- Z.bit0_mod. reflexivity.
Qed.

Lemma ones_below_range n w : 0 <= ones_below n w <= Z.of_nat n.
Proof.
  induction n as [|n IH]; simpl ones_below; [lia|].
  destruct (Z.testbit w (Z.of_nat n)); simpl Z.b2z; lia.
Qed.

(** The loop of [pop_count] leaves the number of 1 bits in [ret]. *)
Lemma pop_count_loop w :
  is_word w -> fold_left pop_count_step (seq 0 6) w = bit_count w.
Proof.
  intros Hw.
  assert (L0 : level 1 64 (bit_count w) (bits_of 64 w)).
  { split; [apply length_bits_of|split; [apply fields_le_bits_of|]].
    apply zsum_bits_of. }
  assert (Hpack : w = pack 1 (bits_of 64 w)).
  { rewrite pack_bits_of. symmetry. apply Z.mod_small, Hw. }
  set (f0 := bits_of 64 w) in *.
  pose proof (level_sum_pairs 1 32 _ f0 ltac:(lia) L0) as L1.
  set (f1 := sum_pairs f0) in *.
  pose proof (level_sum_pairs 2 16 _ f1 ltac:(lia) L1) as L2.
  set (f2 := sum_pairs f1) in *.
  pose proof (level_sum_pairs 4 8 _ f2 ltac:(lia) L2) as L3.
  set (f3 := sum_pairs f2) in *.
  pose proof (level_sum_pairs 8 4 _ f3 ltac:(lia) L3) as L4.
  set (f4 := sum_pairs f3) in *.
  pose proof (level_sum_pairs 16 2 _ f4 ltac:(lia) L4) as L5.
  set (f5 := sum_pairs f4) in *.
  pose proof (level_sum_pairs 32 1 _ f5 ltac:(lia) L5) as L6.
  set (f6 := sum_pairs f5) in *.
  change (seq 0 6) with [0; 1; 2; 3; 4; 5]%nat. cbn [fold_left].
  rewrite Hpack at 1.
  rewrite (pop_count_step_pack 0 1 32 _ f0 ltac:(lia) eq_refl eq_refl eq_refl L0).
  change (2 * 1) with 2. fold f1.
  rewrite (pop_count_step_pack 1 2 16 _ f1 ltac:(lia) eq_refl eq_refl eq_refl L1).
  change (2 * 2) with 4. fold f2.
  rewrite (pop_count_step_pack 2 4 8 _ f2 ltac:(lia) eq_refl eq_refl eq_refl L2).
  change (2 * 4) with 8. fold f3.
  rewrite (pop_count_step_pack 3 8 4 _ f3 ltac:(lia) eq_refl eq_refl eq_refl L3).
  change (2 * 8) with 16. fold f4.
  rewrite (pop_count_step_pack 4 16 2 _ f4 ltac:(lia) eq_refl eq_refl eq_refl L4).
  change (2 * 16) with 32. fold f5.
  rewrite (pop_count_step_pack 5 32 1 _ f5 ltac:(lia) eq_refl eq_refl eq_refl L5).
  fold f6. destruct L6 as (Hlen & _ & Hsum).
  destruct f6 as [|t [|? ?]]; try discriminate Hlen.
  rewrite zsum_cons in Hsum. change (zsum []) with 0 in Hsum.
  simpl pack. lia.
Qed.

Lemma pop_count_eq w : is_word w -> pop_count w = bit_count w.
Proof.
  intros Hw. unfold pop_count. rewrite pop_count_loop by assumption.
  unfold u8. apply Z.mod_small.
  pose proof (ones_below_range 64 w). unfold bit_count. simpl Z.of_nat in *. lia.
Qed.

End PopCount.

(** C8.  For every 64-bit word, [pop_count] returns exactly the number
    of 1 bits of the word: the six mask-and-add turns leave the count,
    which is at most 64, and the conversion to [uint8_t] keeps it. *)
Theorem pop_count_exact :
  forall w, is_word w ->
    pop_count w = bit_count w /\ 0 <= pop_count w <= 64.
Proof.
  intros w Hw. rewrite pop_count_eq by assumption. split; [reflexivity|].
  apply (ones_below_range 64 w).
Qed.

Lemma pop_count_exact_witness :
  pop_count 0xAAAAAAAAAAAAAAAA = bit_count 0xAAAAAAAAAAAAAAAA /\
  0 <= pop_count 0xAAAAAAAAAAAAAAAA <= 64.
Proof.
  apply (pop_count_exact 0xAAAAAAAAAAAAAAAA). unfold is_word. lia.
Defined.

(** ** Meta-rule selection *)

Section MetaRule.

Lemma density_b2z w : density w = Z.b2z (32 <? pop_count w).
Proof. unfold density. destruct (32 <? pop_count w); reflexivity. Qed.

Lemma density_spec w : is_word w -> density w = spec_density w.
Proof.
  intros Hw. unfold density, spec_density.
  rewrite pop_count_eq by assumption. reflexivity.
Qed.

(** On density symbols the contribution of pattern [i] is 1 exactly
    when the context equals [i] and bit [i] of the rule is set. *)
Lemma meta_term_val rule (bl bc br : bool) i :
  0 <= i <= 7 ->
  meta_term rule (Z.b2z bl) (Z.b2z bc) (Z.b2z br) i =
    if (4 * Z.b2z bl + 2 * Z.b2z bc + Z.b2z br =? i) && Z.testbit rule i
    then 1 else 0.
Proof.
  intros Hi. unfold meta_term. cbv zeta.
  rewrite (bit_of_shift rule i) by lia.
  generalize (Z.testbit rule i); intros b.
  assert (Hc : i = 0 \/ i = 1 \/ i = 2 \/ i = 3 \/ i = 4 \/ i = 5 \/ i = 6 \/ i = 7)
    by lia.
  destruct Hc as [->|[->|[->|[->|[->|[->|[->| ->]]]]]]];
    destruct bl, bc, br, b; reflexivity.
Qed.

Lemma spec_lookup_or_unfold rule ctx :
  spec_lookup_or rule ctx =
    let t i := if (ctx =? i) && Z.testbit rule i then 1 else 0 in
    Z.lor (Z.lor (Z.lor (Z.lor (Z.lor (Z.lor (Z.lor (Z.lor 0
      (t 0)) (t 1)) (t 2)) (t 3)) (t 4)) (t 5)) (t 6)) (t 7).
Proof. reflexivity. Qed.

Lemma meta_index_unfold rule c_prev c c_next :
  ca1d_meta_rule_index rule c_prev c c_next =
    let t := meta_term rule (density c_prev) (density c) (density c_next) in
    Z.lor (Z.lor (Z.lor (Z.lor (Z.lor (Z.lor (Z.lor (Z.lor 0
      (t 0)) (t 1)) (t 2)) (t 3)) (t 4)) (t 5)) (t 6)) (t 7).
Proof. reflexivity. Qed.

Lemma spec_lookup_or_val rule (bl bc br : bool) :
  spec_lookup_or rule (4 * Z.b2z bl + 2 * Z.b2z bc + Z.b2z br) =
    Z.b2z (Z.testbit rule (4 * Z.b2z bl + 2 * Z.b2z bc + Z.b2z br)).
Proof.
  rewrite spec_lookup_or_unfold. cbv zeta.
  destruct bl, bc, br;
    match goal with
    | |- context [Z.b2z (Z.testbit rule ?e)] =>
        let v := eval vm_compute in e in change e with v
    end;
    destruct (Z.testbit rule 0), (Z.testbit rule 1), (Z.testbit rule 2),
             (Z.testbit rule 3), (Z.testbit rule 4), (Z.testbit rule 5),
             (Z.testbit rule 6), (Z.testbit rule 7);
    reflexivity.
Qed.

Lemma meta_index_lookup_or rule c_prev c c_next :
  ca1d_meta_rule_index rule c_prev c c_next =
    spec_lookup_or rule (4 * density c_prev + 2 * density c + density c_next).
Proof.
  rewrite meta_index_unfold, spec_lookup_or_unfold. cbv zeta.
  rewrite !density_b2z, !meta_term_val by lia. reflexivity.
Qed.

Lemma meta_index_bit rule c_prev c c_next :
  ca1d_meta_rule_index rule c_prev c c_next =
    Z.b2z (Z.testbit rule (4 * density c_prev + 2 * density c + density c_next)).
Proof.
  rewrite meta_index_lookup_or, !density_b2z. apply spec_lookup_or_val.
Qed.

Lemma meta_index_01 rule c_prev c c_next :
  ca1d_meta_rule_index rule c_prev c c_next = 0 \/
  ca1d_meta_rule_index rule c_prev c c_next = 1.
Proof.
  rewrite meta_index_bit.
  destruct (Z.testbit rule _); [right|left]; reflexivity.
Qed.

End MetaRule.

(** C3.  For every meta-rule byte and every three neighbour words,
    [ca1d_meta_rule_apply] is the selection the specification words:
    each word is classified by a density symbol that is 1 exactly when
    the number of its set bits exceeds 32, the eight-pattern lookup and
    OR over that context and the meta-rule byte gives an integer in
    [0, 7], and the entry of the rule table at that index is returned. *)
Theorem ca1d_meta_rule_apply_select_rule :
  forall rule_set meta c_prev c c_next,
    is_word c_prev -> is_word c -> is_word c_next ->
    ca1d_meta_rule_apply rule_set meta c_prev c c_next =
      select_rule meta c_prev c c_next rule_set /\
    density c_prev = spec_density c_prev /\
    density c = spec_density c /\
    density c_next = spec_density c_next /\
    ca1d_meta_rule_index meta c_prev c c_next =
      spec_lookup_or meta (4 * density c_prev + 2 * density c + density c_next) /\
    0 <= ca1d_meta_rule_index meta c_prev c c_next <= 7.
Proof.
  intros rule_set meta c_prev c c_next Hp Hc Hn.
  split; [|split; [|split; [|split; [|split]]]].
  - unfold ca1d_meta_rule_apply, select_rule.
    rewrite meta_index_lookup_or.
    rewrite (density_spec c_prev), (density_spec c), (density_spec c_next)
      by assumption.
    reflexivity.
  - exact (density_spec c_prev Hp).
  - exact (density_spec c Hc).
  - exact (density_spec c_next Hn).
  - apply meta_index_lookup_or.
  - destruct (meta_index_01 meta c_prev c c_next) as [-> | ->]; lia.
Qed.

Lemma ca1d_meta_rule_apply_select_rule_witness :
  ca1d_meta_rule_apply [30; 110] 128 (2 ^ 64 - 1) (2 ^ 64 - 1) (2 ^ 64 - 1) =
    select_rule 128 (2 ^ 64 - 1) (2 ^ 64 - 1) (2 ^ 64 - 1) [30; 110].
Proof.
  apply (ca1d_meta_rule_apply_select_rule [30; 110] 128
           (2 ^ 64 - 1) (2 ^ 64 - 1) (2 ^ 64 - 1));
    unfold is_word; lia.
Defined.

(** C4.  [ca1d_meta_rule_apply] returns [rules[b]], where [b] is bit
    [4*pl + 2*pc + pr] of the meta rule and [pl], [pc], [pr] are the
    density symbols.  The index is 0 or 1, so the read of the table of
    256 rules is in bounds, and the entries from index 2 on have no
    influence on the selection. *)
Theorem ca1d_meta_rule_apply_bit :
  forall rules meta c_prev c c_next,
    length rules = 256%nat ->
    let pl := density c_prev in
    let pc := density c in
    let pr := density c_next in
    let b := Z.b2z (Z.testbit meta (4 * pl + 2 * pc + pr)) in
    ca1d_meta_rule_index meta c_prev c c_next = b /\
    (b = 0 \/ b = 1) /\
    ca1d_meta_rule_apply rules meta c_prev c c_next = rules !!! Z.to_nat b /\
    (Z.to_nat (ca1d_meta_rule_index meta c_prev c c_next) < length rules)%nat /\
    (forall rules' : list Z,
       rules' !!! 0%nat = rules !!! 0%nat -> rules' !!! 1%nat = rules !!! 1%nat ->
       ca1d_meta_rule_apply rules' meta c_prev c c_next =
         ca1d_meta_rule_apply rules meta c_prev c c_next).
Proof.
  intros rules meta c_prev c c_next Hlen pl pc pr b.
  assert (Hb : ca1d_meta_rule_index meta c_prev c c_next = b)
    by apply meta_index_bit.
  assert (H01 : b = 0 \/ b = 1).
  { subst b. destruct (Z.testbit meta _); [right|left]; reflexivity. }
  split; [exact Hb|]. split; [exact H01|]. split; [|split].
  - unfold ca1d_meta_rule_apply. rewrite Hb. reflexivity.
  - rewrite Hb, Hlen. destruct H01 as [-> | ->]; simpl; lia.
  - intros rules' H0 H1. unfold ca1d_meta_rule_apply. rewrite Hb.
    destruct H01 as [-> | ->]; assumption.
Qed.

Lemma ca1d_meta_rule_apply_bit_witness :
  ca1d_meta_rule_index 128 (2 ^ 64 - 1) (2 ^ 64 - 1) (2 ^ 64 - 1) =
    Z.b2z (Z.testbit 128
             (4 * density (2 ^ 64 - 1) + 2 * density (2 ^ 64 - 1)
              + density (2 ^ 64 - 1))).
Proof.
  pose proof (ca1d_meta_rule_apply_bit (30 :: 110 :: replicate 254 0) 128
                (2 ^ 64 - 1) (2 ^ 64 - 1) (2 ^ 64 - 1) eq_refl) as H.
  cbv zeta in H. exact (proj1 H).
Defined.

(** ** Row updates *)

Section Rows.

Variable g : globals.
Hypothesis width_pos : (1 <= width g)%nat.

Lemma rule_row_loop_word_loop prev cur : forall fuel i next,
  rule_row_loop g fuel prev cur i next =
    word_loop (width g)
      (fun i => ca1d_rule_apply (rules_at g i)
                  (cur !!! (i - 1)%nat) (cur !!! i) (cur !!! (i + 1)%nat)
                  (prev !!! i))
      fuel i next.
Proof.
  induction fuel as [|fuel IH]; intros i next; simpl; [reflexivity|].
  destruct (i <? width g - 1)%nat; [apply IH|reflexivity].
Qed.

Lemma meta_row_loop_word_loop prev cur : forall fuel i next,
  meta_row_loop g fuel prev cur i next =
    word_loop (width g)
      (fun i => meta_word g (cur !!! (i - 1)%nat) (cur !!! i)
                  (cur !!! (i + 1)%nat) (prev !!! i))
      fuel i next.
Proof.
  induction fuel as [|fuel IH]; intros i next; simpl; [reflexivity|].
  destruct (i <? width g - 1)%nat; [apply IH|reflexivity].
Qed.

(** With enough fuel the loop stops at [max i (w - 1)], having stored
    [f j] at every column [j] from [i] up to [w - 2]. *)
Lemma word_loop_spec w f : forall fuel i (next : list Z),
  (w - 1 - i <= fuel)%nat ->
  let res := word_loop w f fuel i next in
  fst res = Nat.max i (w - 1) /\
  length (snd res) = length next /\
  forall j, snd res !! j =
    if decide (i <= j < w - 1 /\ j < length next)%nat then Some (f j)
    else next !! j.
Proof.
  induction fuel as [|fuel IH]; intros i next Hfuel; simpl.
  - split; [lia|]. split; [reflexivity|].
    intros j. case_decide; [lia|reflexivity].
  - destruct (Nat.ltb_spec i (w - 1)) as [Hlt|Hge].
    + destruct (IH (i + 1)%nat (<[i := f i]> next) ltac:(lia)) as (Hi & Hlen & Hj).
      split; [lia|]. rewrite length_insert in Hlen. split; [exact Hlen|].
      intros j. rewrite Hj, length_insert.
      destruct (decide (j = i)) as [->|Hne].
      * case_decide; [lia|]. case_decide.
        -- apply list_lookup_insert_eq. lia.
        -- rewrite list_insert_ge by lia. reflexivity.
      * rewrite list_lookup_insert_ne by congruence.
        repeat case_decide; try reflexivity; lia.
    + simpl. split; [lia|]. split; [reflexivity|].
      intros j. case_decide; [lia|reflexivity].
Qed.

(** Every column of the row is stored once, with the word of its case. *)
Lemma word_row_lookup first f last (next : list Z) j :
  length next = width g -> (j < width g)%nat ->
  word_row (width g) first f last next !! j =
    Some (if (j =? 0)%nat then first
          else if (j <? width g - 1)%nat then f j else last j).
Proof.
  intros Hlen Hj. unfold word_row.
  pose proof (word_loop_spec (width g) f (width g) 1 (<[0%nat := first]> next)
                ltac:(lia)) as Hspec.
  destruct (word_loop (width g) f (width g) 1 (<[0%nat := first]> next))
    as [i next'] eqn:Hloop.
  simpl in Hspec. destruct Hspec as (Hi & Hlen' & Hlook).
  rewrite length_insert in Hlen', Hlook.
  destruct (Nat.leb_spec (width g) i) as [Hret|Hlast].
  - (* width = 1: the early return *)
    assert (j = 0%nat) by lia. subst j.
    rewrite Hlook. case_decide; [lia|].
    rewrite list_lookup_insert_eq by lia. reflexivity.
  - assert (Hi' : i = (width g - 1)%nat) by lia.
    destruct (decide (j = i)) as [->|Hne].
    + rewrite list_lookup_insert_eq by lia.
      destruct (Nat.eqb_spec i 0); [lia|].
      destruct (Nat.ltb_spec i (width g - 1)); [lia|]. reflexivity.
    + rewrite list_lookup_insert_ne by congruence. rewrite Hlook.
      destruct (Nat.eqb_spec j 0) as [->|Hj0].
      * case_decide; [lia|]. rewrite list_lookup_insert_eq by lia. reflexivity.
      * destruct (Nat.ltb_spec j (width g - 1)); [|lia].
        case_decide; [reflexivity|lia].
Qed.

Lemma word_row_length first f last (next : list Z) :
  length (word_row (width g) first f last next) = length next.
Proof.
  unfold word_row.
  pose proof (word_loop_spec (width g) f (width g) 1 (<[0%nat := first]> next)
                ltac:(lia)) as Hspec.
  destruct (word_loop (width g) f (width g) 1 (<[0%nat := first]> next))
    as [i next'] eqn:Hloop.
  simpl in Hspec. destruct Hspec as (_ & Hlen' & _).
  rewrite length_insert in Hlen'.
  destruct (width g <=? i)%nat; rewrite ?length_insert; exact Hlen'.
Qed.

Lemma row_of_lookup sel prev cur j :
  (j < width g)%nat ->
  row_of (width g) sel prev cur !! j =
    Some (ca1d_rule_apply (sel j)
            (cur !!! left_col (width g) j) (cur !!! j)
            (cur !!! right_col (width g) j) (prev !!! j)).
Proof.
  intros Hj. unfold row_of.
  rewrite list_lookup_fmap, lookup_seq_lt by assumption. reflexivity.
Qed.

Lemma row_of_length sel prev cur : length (row_of (width g) sel prev cur) = width g.
Proof. unfold row_of. rewrite length_map, length_seq. reflexivity. Qed.

Lemma GP_MIN_right_col : GP_MIN 1 (width g - 1) = right_col (width g) 0.
Proof.
  unfold GP_MIN, right_col.
  destruct (Nat.ltb_spec 1 (width g - 1)), (Nat.eqb_spec 0 (width g - 1)); lia.
Qed.

Lemma ca1d_rule_apply_row_word_row prev cur next :
  ca1d_rule_apply_row g prev cur next =
    word_row (width g)
      (ca1d_rule_apply (rules g !!! 0%nat)
         (cur !!! (width g - 1)%nat) (cur !!! 0%nat)
         (cur !!! GP_MIN 1 (width g - 1)) (prev !!! 0%nat))
      (fun i => ca1d_rule_apply (rules_at g i)
                  (cur !!! (i - 1)%nat) (cur !!! i) (cur !!! (i + 1)%nat)
                  (prev !!! i))
      (fun i => ca1d_rule_apply (rules_at g i)
                  (cur !!! (i - 1)%nat) (cur !!! i) (cur !!! 0%nat)
                  (prev !!! i))
      next.
Proof.
  unfold ca1d_rule_apply_row, word_row.
  rewrite rule_row_loop_word_loop. reflexivity.
Qed.

Lemma ca1d_meta_rule_apply_row_word_row prev cur next :
  ca1d_meta_rule_apply_row g prev cur next =
    word_row (width g)
      (meta_word g (cur !!! (width g - 1)%nat) (cur !!! 0%nat)
         (cur !!! GP_MIN 1 (width g - 1)) (prev !!! 0%nat))
      (fun i => meta_word g (cur !!! (i - 1)%nat) (cur !!! i)
                  (cur !!! (i + 1)%nat) (prev !!! i))
      (fun i => meta_word g (cur !!! (i - 1)%nat) (cur !!! i)
                  (cur !!! 0%nat) (prev !!! i))
      next.
Proof.
  unfold ca1d_meta_rule_apply_row, word_row.
  rewrite meta_row_loop_word_loop. reflexivity.
Qed.

Lemma ca1d_rule_apply_row_lookup prev cur (next : list Z) j :
  length next = width g -> (j < width g)%nat ->
  ca1d_rule_apply_row g prev cur next !! j =
    Some (ca1d_rule_apply (plain_rule g j)
            (cur !!! left_col (width g) j) (cur !!! j)
            (cur !!! right_col (width g) j) (prev !!! j)).
Proof.
  intros Hlen Hj.
  rewrite ca1d_rule_apply_row_word_row, word_row_lookup by assumption.
  f_equal. unfold plain_rule, left_col, right_col.
  destruct (Nat.eqb_spec j 0) as [->|Hj0].
  - rewrite GP_MIN_right_col. reflexivity.
  - destruct (Nat.ltb_spec j (width g - 1)), (Nat.eqb_spec j (width g - 1));
      try lia; reflexivity.
Qed.

Lemma ca1d_meta_rule_apply_row_lookup prev cur (next : list Z) j :
  length next = width g -> (j < width g)%nat ->
  ca1d_meta_rule_apply_row g prev cur next !! j =
    Some (ca1d_rule_apply (meta_rule_at g cur j)
            (cur !!! left_col (width g) j) (cur !!! j)
            (cur !!! right_col (width g) j) (prev !!! j)).
Proof.
  intros Hlen Hj.
  rewrite ca1d_meta_rule_apply_row_word_row, word_row_lookup by assumption.
  f_equal. unfold meta_word, meta_rule_at, left_col, right_col.
  destruct (Nat.eqb_spec j 0) as [->|Hj0].
  - rewrite GP_MIN_right_col. reflexivity.
  - destruct (Nat.ltb_spec j (width g - 1)), (Nat.eqb_spec j (width g - 1));
      try lia; reflexivity.
Qed.

End Rows.

(** C6.  For every row update (with the rule list or with the meta
    rule) and every width of at least 1, column [i] of the new row is
    the rule of that column applied to the words of the current row at
    the columns [left_col], [i] and [right_col]: the left neighbour of
    word 0 is word [width - 1], the right neighbour of word
    [width - 1] is word 0, every other neighbour is the adjacent word,
    and for width 1 both neighbours of the only word are that word.  The statement on the
    rule-list row update is for [rule_n <> 0], which its [i % rule_n]
    needs. *)
Theorem row_neighbours_toroidal :
  forall g prev cur (next : list Z) i,
    (1 <= width g)%nat -> length next = width g -> (i < width g)%nat ->
    let w := width g in
    (rule_n g <> 0 ->
     ca1d_rule_apply_row g prev cur next !! i =
       Some (ca1d_rule_apply (plain_rule g i)
               (cur !!! left_col w i) (cur !!! i) (cur !!! right_col w i)
               (prev !!! i))) /\
    ca1d_meta_rule_apply_row g prev cur next !! i =
      Some (ca1d_rule_apply (meta_rule_at g cur i)
              (cur !!! left_col w i) (cur !!! i) (cur !!! right_col w i)
              (prev !!! i)) /\
    left_col w 0 = (w - 1)%nat /\
    right_col w (w - 1) = 0%nat /\
    (left_col w i = if (i =? 0)%nat then (w - 1)%nat else (i - 1)%nat) /\
    (right_col w i = if (i =? w - 1)%nat then 0%nat else (i + 1)%nat) /\
    left_col 1 0 = 0%nat /\ right_col 1 0 = 0%nat.
Proof.
  intros g prev cur next i Hw Hlen Hi w.
  split; [intros _; apply ca1d_rule_apply_row_lookup; assumption|].
  split; [apply ca1d_meta_rule_apply_row_lookup; assumption|].
  split; [reflexivity|].
  split; [unfold right_col; rewrite Nat.eqb_refl; reflexivity|].
  repeat split.
Qed.

Lemma row_neighbours_toroidal_witness :
  ca1d_rule_apply_row (Globals 1 2 1 [110] 0 0) [0] [1] [0] !! 0%nat =
    Some (ca1d_rule_apply (plain_rule (Globals 1 2 1 [110] 0 0) 0)
            ([1] !!! left_col 1 0) ([1] !!! 0%nat) ([1] !!! right_col 1 0)
            ([0] !!! 0%nat)).
Proof.
  pose proof (row_neighbours_toroidal (Globals 1 2 1 [110] 0 0) [0] [1] [0] 0%nat
                ltac:(simpl; lia) eq_refl ltac:(simpl; lia)) as H.
  cbv zeta in H. exact (proj1 H ltac:(simpl; lia)).
Defined.

(** ** The run *)

Section Run.

Variable g : globals.
Hypothesis width_pos : (1 <= width g)%nat.

Lemma well_formed_row steps k :
  well_formed g steps -> (k < height g)%nat -> length (steps !!! k) = width g.
Proof.
  intros [Hlen Hrows] Hk.
  apply (Forall_lookup_1 _ _ k (steps !!! k) Hrows).
  apply list_lookup_lookup_total_lt. lia.
Qed.

Lemma well_formed_insert steps k row :
  well_formed g steps -> length row = width g ->
  well_formed g (<[k := row]> steps).
Proof.
  intros [Hlen Hrows] Hrow. split.
  - rewrite length_insert. exact Hlen.
  - apply Forall_insert; assumption.
Qed.

Lemma ca1d_rule_apply_row_eq prev cur (next : list Z) :
  length next = width g ->
  ca1d_rule_apply_row g prev cur next = row_of (width g) (plain_rule g) prev cur.
Proof.
  intros Hlen. apply list_eq. intros j.
  destruct (Nat.lt_ge_cases j (width g)) as [Hj|Hj].
  - rewrite ca1d_rule_apply_row_lookup, row_of_lookup by assumption. reflexivity.
  - rewrite !lookup_ge_None_2; [reflexivity| |].
    + rewrite row_of_length. exact Hj.
    + rewrite ca1d_rule_apply_row_word_row, word_row_length by assumption. lia.
Qed.

Lemma ca1d_meta_rule_apply_row_eq prev cur (next : list Z) :
  length next = width g ->
  ca1d_meta_rule_apply_row g prev cur next =
    row_of (width g) (meta_rule_at g cur) prev cur.
Proof.
  intros Hlen. apply list_eq. intros j.
  destruct (Nat.lt_ge_cases j (width g)) as [Hj|Hj].
  - rewrite ca1d_meta_rule_apply_row_lookup, row_of_lookup by assumption.
    reflexivity.
  - rewrite !lookup_ge_None_2; [reflexivity| |].
    + rewrite row_of_length. exact Hj.
    + rewrite ca1d_meta_rule_apply_row_word_row, word_row_length by assumption.
      lia.
Qed.

(** One row update stores the next row, whatever the old content of
    the row it overwrites. *)
Lemma row_update_eq steps prev cur next :
  well_formed g steps -> (next < height g)%nat ->
  row_update g steps prev cur next =
    <[next := next_row g (deref g steps prev) (deref g steps cur)]> steps.
Proof.
  intros Hwf Hnext. unfold row_update, next_row, rule_used.
  pose proof (well_formed_row steps next Hwf Hnext) as Hlen.
  destruct (meta_rule g =? 0).
  - rewrite ca1d_rule_apply_row_eq by assumption. reflexivity.
  - rewrite ca1d_meta_rule_apply_row_eq by assumption. reflexivity.
Qed.

Lemma next_row_length prev cur : length (next_row g prev cur) = width g.
Proof. unfold next_row. exact (row_of_length g _ prev cur). Qed.

(** The loop of [ca1d_run], entered to compute row [i] from row
    [i - 1]: it ends, keeps the rows below [i], and fills every row
    from [i] on. *)
Lemma run_loop_spec : forall fuel steps prev i,
  (1 <= i < height g)%nat -> (height g - i <= fuel)%nat ->
  well_formed g steps ->
  let m := run_loop g fuel steps prev (StepsRow (i - 1)) i i in
  well_formed g m /\
  (forall k, (k < i)%nat -> m !!! k = steps !!! k) /\
  m !!! i = next_row g (deref g steps prev) (steps !!! (i - 1)%nat) /\
  (forall k, (i < k < height g)%nat ->
     m !!! k =
       next_row g
         (if reversible g =? 0 then replicate (width g) 0 else m !!! (k - 2)%nat)
         (m !!! (k - 1)%nat)).
Proof.
  induction fuel as [|fuel IH]; intros steps prev i Hi Hfuel Hwf; [lia|].
  simpl run_loop. rewrite row_update_eq by (assumption || lia).
  set (row := next_row g (deref g steps prev) (deref g steps (StepsRow (i - 1)))).
  set (steps' := <[i := row]> steps).
  assert (Hwf' : well_formed g steps')
    by (apply well_formed_insert; [assumption|apply next_row_length]).
  assert (Hlt : (i < length steps)%nat) by (destruct Hwf; lia).
  assert (Hrow : steps' !!! i = row)
    by (apply list_lookup_total_insert_eq; exact Hlt).
  assert (Hold : forall k, (k < i)%nat -> steps' !!! k = steps !!! k).
  { intros k Hk. apply list_lookup_total_insert_ne. lia. }
  destruct (Nat.leb_spec (height g) (i + 1)) as [Hend|Hmore].
  - cbv zeta. split; [exact Hwf'|]. split; [exact Hold|].
    split; [exact Hrow|]. intros k Hk. lia.
  - specialize (IH steps'
                  (if reversible g =? 0 then Zeroes else StepsRow (i - 1))
                  (i + 1)%nat ltac:(lia) ltac:(lia) Hwf').
    replace (i + 1 - 1)%nat with i in IH by lia.
    cbv zeta in IH. destruct IH as (Hm & Hlow & Hnext & Hrest).
    cbv zeta. set (m := run_loop g fuel steps' _ (StepsRow i) (i + 1) (i + 1)) in *.
    split; [exact Hm|].
    split; [intros k Hk; rewrite Hlow by lia; apply Hold, Hk|].
    split; [rewrite Hlow by lia; exact Hrow|].
    intros k Hk. destruct (decide (k = i + 1)%nat) as [->|Hne].
    + rewrite Hnext. replace (i + 1 - 1)%nat with i by lia.
      replace (i + 1 - 2)%nat with (i - 1)%nat by lia.
      rewrite (Hlow i) by lia. f_equal.
      destruct (reversible g =? 0); [reflexivity|].
      simpl deref. rewrite Hlow by lia. reflexivity.
    + apply Hrest. lia.
Qed.

(** The run ends and fills the matrix: row 0 is the initial row, and
    every later row is the next row of the row before it, with the
    carry row of [carry_row]. *)
Lemma ca1d_run_rows init steps :
  (2 <= height g)%nat -> well_formed g steps -> (width g <= length init)%nat ->
  let m := ca1d_run g init steps in
  well_formed g m /\
  m !!! 0%nat = take (width g) init /\
  (forall k, (1 <= k < height g)%nat ->
     m !!! k = next_row g (carry_row g m k) (m !!! (k - 1)%nat)).
Proof.
  intros Hh Hwf Hinit. unfold ca1d_run.
  set (steps0 := <[0%nat := take (width g) init]> steps).
  assert (Hwf0 : well_formed g steps0).
  { apply well_formed_insert; [assumption|]. rewrite length_take. lia. }
  assert (H0 : steps0 !!! 0%nat = take (width g) init).
  { apply list_lookup_total_insert_eq. destruct Hwf. lia. }
  pose proof (run_loop_spec (S (height g)) steps0 Zeroes 1
                ltac:(lia) ltac:(lia) Hwf0) as Hspec.
  change (1 - 1)%nat with 0%nat in Hspec. cbv zeta in Hspec.
  destruct Hspec as (Hm & Hlow & Hone & Hrest).
  cbv zeta. set (m := run_loop g (S (height g)) steps0 Zeroes (StepsRow 0) 1 1) in *.
  split; [exact Hm|]. split; [rewrite Hlow by lia; exact H0|].
  intros k Hk. unfold carry_row.
  destruct (Nat.ltb_spec k 2) as [Hk1|Hk2].
  - assert (k = 1%nat) by lia. subst k.
    rewrite Hone. change (1 - 1)%nat with 0%nat.
    rewrite (Hlow 0%nat) by lia. reflexivity.
  - apply Hrest. lia.
Qed.

End Run.

Lemma next_row_word g prev cur c :
  (c < width g)%nat ->
  next_row g prev cur !!! c =
    ca1d_rule_apply (rule_used g cur c)
      (cur !!! left_col (width g) c) (cur !!! c) (cur !!! right_col (width g) c)
      (prev !!! c).
Proof.
  intros Hc. apply list_lookup_total_correct.
  unfold next_row. apply row_of_lookup. exact Hc.
Qed.

Lemma carry_row_word g (m : list (list Z)) k c :
  (c < width g)%nat ->
  carry_row g m k !!! c =
    if (k <? 2)%nat then 0
    else if reversible g =? 0 then 0 else (m !!! (k - 2)%nat) !!! c.
Proof.
  intros Hc. unfold carry_row.
  destruct (k <? 2)%nat; [apply lookup_total_replicate_2, Hc|].
  destruct (reversible g =? 0); [apply lookup_total_replicate_2, Hc|reflexivity].
Qed.

(** Every word of every row after the first, in terms of the row
    before it and of the carry word. *)
Lemma ca1d_run_word g init steps k c :
  (1 <= width g)%nat -> (2 <= height g)%nat ->
  well_formed g steps -> (width g <= length init)%nat ->
  (1 <= k < height g)%nat -> (c < width g)%nat ->
  let m := ca1d_run g init steps in
  let cur := m !!! (k - 1)%nat in
  (m !!! k) !!! c =
    ca1d_rule_apply (rule_used g cur c)
      (cur !!! left_col (width g) c) (cur !!! c) (cur !!! right_col (width g) c)
      (if (k <? 2)%nat then 0
       else if reversible g =? 0 then 0 else (m !!! (k - 2)%nat) !!! c).
Proof.
  intros Hw Hh Hwf Hinit Hk Hc m cur.
  destruct (ca1d_run_rows g Hw init steps Hh Hwf Hinit) as (_ & _ & Hrows).
  fold m in Hrows. rewrite (Hrows k Hk), next_row_word by assumption.
  fold cur. rewrite carry_row_word by assumption. reflexivity.
Qed.

(** C7.  In every run the carry word used for row 1 is the zero word,
    whatever the reversible flag; for every generation [k >= 2] the
    carry word of a column is the word of row [k - 2] in that column
    when the flag is set, and the zero word when it is not.  The run is one the
    program completes: with the meta rule off, [rule_n] is not 0 (the
    rule-list row update computes [i % rule_n]). *)
Theorem run_carry_word :
  forall g init steps k c,
    (meta_rule g = 0 -> rule_n g <> 0) ->
    (1 <= width g)%nat -> (2 <= height g)%nat ->
    well_formed g steps -> (width g <= length init)%nat ->
    (1 <= k < height g)%nat -> (c < width g)%nat ->
    let m := ca1d_run g init steps in
    let cur := m !!! (k - 1)%nat in
    let carry_word :=
      if (k =? 1)%nat then 0
      else if reversible g =? 0 then 0
      else (m !!! (k - 2)%nat) !!! c in
    (m !!! k) !!! c =
      ca1d_rule_apply (rule_used g cur c)
        (cur !!! left_col (width g) c) (cur !!! c)
        (cur !!! right_col (width g) c)
        carry_word.
Proof.
  intros g init steps k c Hrn Hw Hh Hwf Hinit Hk Hc m cur carry_word.
  subst m cur carry_word.
  rewrite ca1d_run_word by assumption.
  destruct (Nat.ltb_spec k 2), (Nat.eqb_spec k 1); try lia; reflexivity.
Qed.

(** C2.  In a reversible run, for every generation [k >= 2] and every
    column, the rule that produced the word of row [k], applied to the
    same neighbourhood of row [k - 1] with the word of row [k] as
    carry, gives back the word of row [k - 2].  The run is one the
    program completes: with the meta rule off, [rule_n] is not 0 (the
    rule-list row update computes [i % rule_n]). *)
Theorem reversible_round_trip :
  forall g init steps k c,
    (meta_rule g = 0 -> rule_n g <> 0) ->
    (1 <= width g)%nat -> (2 <= height g)%nat ->
    well_formed g steps -> (width g <= length init)%nat ->
    reversible g <> 0 ->
    (2 <= k < height g)%nat -> (c < width g)%nat ->
    let m := ca1d_run g init steps in
    let cur := m !!! (k - 1)%nat in
    ca1d_rule_apply (rule_used g cur c)
      (cur !!! left_col (width g) c) (cur !!! c) (cur !!! right_col (width g) c)
      ((m !!! k) !!! c)
    = (m !!! (k - 2)%nat) !!! c.
Proof.
  intros g init steps k c Hrn Hw Hh Hwf Hinit Hrev Hk Hc m cur.
  subst m cur.
  rewrite (ca1d_run_word g init steps k c) by (assumption || lia).
  cbv zeta.
  destruct (Nat.ltb_spec k 2); [lia|].
  destruct (Z.eqb_spec (reversible g) 0); [contradiction|].
  rewrite !ca1d_rule_apply_unfold.
  rewrite <- Z.lxor_assoc, Z.lxor_nilpotent, Z.lxor_0_l. reflexivity.
Qed.

Lemma run_carry_word_witness :
  (ca1d_run (Globals 1 3 1 [110] 1 0) [1] [[0]; [0]; [0]] !!! 2%nat) !!! 0%nat = 6.
Proof.
  pose proof (run_carry_word (Globals 1 3 1 [110] 1 0) [1] [[0]; [0]; [0]] 2 0
                ltac:(simpl; intros; lia) ltac:(simpl; lia) ltac:(simpl; lia)
                ltac:(split; [reflexivity|repeat constructor])
                ltac:(simpl; lia) ltac:(simpl; lia) ltac:(simpl; lia)) as H.
  cbv zeta in H. rewrite H. vm_compute. reflexivity.
Defined.

Lemma reversible_round_trip_witness :
  ca1d_rule_apply 110 3 3 3 6 = 1.
Proof.
  pose proof (reversible_round_trip (Globals 1 3 1 [110] 1 0) [1] [[0]; [0]; [0]] 2 0
                ltac:(simpl; intros; lia) ltac:(simpl; lia) ltac:(simpl; lia)
                ltac:(split; [reflexivity|repeat constructor])
                ltac:(simpl; lia) ltac:(simpl; lia)
                ltac:(simpl; lia) ltac:(simpl; lia)) as H.
  cbv zeta in H. vm_compute in H. vm_compute. exact H.
Defined.

(** ** A zero meta rule *)

Section MetaZero.


Lemma rules_at_single g i : rule_n g = 1 -> rules_at g i = rules g !!! 0%nat.
Proof. intros H. unfold rules_at. rewrite H, Z.mod_1_r. reflexivity. Qed.


Lemma row_of_ext w sel sel' prev cur :
  (forall i, (i < w)%nat -> sel i = sel' i) ->
  row_of w sel prev cur = row_of w sel' prev cur.
Proof.
  intros Hsel. unfold row_of. apply map_ext_in. intros i Hi.
  apply in_seq in Hi. rewrite Hsel by lia. reflexivity.
Qed.

End MetaZero.




(** ** The rule-string parser *)

Section Parser.

(** The loop on a string against the loop on its consumed prefix, from
    any state of the locals. *)
Lemma parse_loop_scan : forall c rules rule_acc rule_indx,
  exists rest,
    c = String.append (fst (scan c rule_acc)) rest /\
    stopped_at (snd (scan c rule_acc)) rest /\
    (exists rules' acc' indx',
       parse_loop (fst (scan c rule_acc)) rules rule_acc rule_indx
         = (rules', Out acc' indx') /\
       (snd (scan c rule_acc) = Overflow -> 25 < acc') /\
       parse_loop c rules rule_acc rule_indx =
         (rules', match snd (scan c rule_acc) with
                  | Unrecognized => Return
                  | _ => Out acc' indx'
                  end)).
Proof.
  induction c as [|ch c IH]; intros rules rule_acc rule_indx.
  - exists EmptyString. simpl. split; [reflexivity|]. split; [left; reflexivity|].
    exists rules, rule_acc, rule_indx. repeat split. discriminate.
  - simpl scan. simpl parse_loop. destruct (classify ch) eqn:Hcls.
    + (* the terminating NUL *)
      exists (String ch c). simpl. split; [reflexivity|].
      split; [right; exists ch, c; split; [reflexivity|exact Hcls]|].
      exists rules, rule_acc, rule_indx. repeat split. discriminate.
    + (* a digit *)
      destruct (Z.ltb_spec 25 rule_acc) as [Hov|Hok].
      * exists (String ch c). simpl. split; [reflexivity|].
        split; [exists ch, c; split; [reflexivity|exact Hcls]|].
        exists rules, rule_acc, rule_indx. repeat split. intros _. exact Hov.
      * specialize (IH rules (u8 (u8 (rule_acc * 10) + (code ch - 48))) rule_indx).
        destruct (scan c (u8 (u8 (rule_acc * 10) + (code ch - 48)))) as [p why].
        destruct IH as (rest & Hrest & Hstop & rules' & acc' & indx' & Hp & Hov & Hc).
        simpl in *. exists rest. split; [rewrite <- Hrest; reflexivity|].
        split; [exact Hstop|]. exists rules', acc', indx'.
        rewrite Hcls. destruct (Z.ltb_spec 25 rule_acc); [lia|].
        repeat split; assumption.
    + (* a separator *)
      specialize (IH (<[Z.to_nat rule_indx := rule_acc]> rules) 0 (u8 (rule_indx + 1))).
      destruct (scan c 0) as [p why].
      destruct IH as (rest & Hrest & Hstop & rules' & acc' & indx' & Hp & Hov & Hc).
      simpl in *. exists rest. split; [rewrite <- Hrest; reflexivity|].
      split; [exact Hstop|]. exists rules', acc', indx'.
      rewrite Hcls. repeat split; assumption.
    + (* a space *)
      specialize (IH rules rule_acc rule_indx).
      destruct (scan c rule_acc) as [p why].
      destruct IH as (rest & Hrest & Hstop & rules' & acc' & indx' & Hp & Hov & Hc).
      simpl in *. exists rest. split; [rewrite <- Hrest; reflexivity|].
      split; [exact Hstop|]. exists rules', acc', indx'.
      rewrite Hcls. repeat split; assumption.
    + (* any other character *)
      exists (String ch c). simpl. split; [reflexivity|].
      split; [exists ch, c; split; [reflexivity|exact Hcls]|].
      exists rules, rule_acc, rule_indx. repeat split. discriminate.
Qed.

End Parser.

(** C10, as stated, fails: the characters consumed before the stopping
    point do not determine the resulting rule list.  The strings "30x"
    and "305" have the same consumed characters "30"; stopped by the
    digit 5, the parser stores 30 as it does for the string "30", but
    stopped by the character x it returns without storing the number
    and leaves the table and the count as they were.  After "30,40x"
    the 30 stored at the comma stays, the 40 is lost and the count is
    still 1. *)
Lemma parse_not_determined_by_consumed :
  consumed "30x" = "30"%string /\
  consumed "305" = "30"%string /\
  parse_rule_nums "305" initial_state = (30 :: replicate 255 0, 1) /\
  parse_rule_nums "30" initial_state = (30 :: replicate 255 0, 1) /\
  parse_rule_nums "30x" initial_state = initial_state /\
  parse_rule_nums "30x" initial_state
    <> parse_rule_nums (consumed "30x") initial_state /\
  parse_rule_nums "30,40x" initial_state = (30 :: replicate 255 0, 1) /\
  parse_rule_nums "30,40" initial_state = (30 :: 40 :: replicate 254 0, 2).
Proof.
  repeat split; try (vm_compute; reflexivity).
  vm_compute. discriminate.
Qed.

(** C10, amended.  For every rule string and every state of the table,
    [parse_rule_nums] reads the consumed prefix and stops at the end of
    the string, at a digit met while the accumulator exceeds 25, or at
    the first character that is not a digit, comma, semicolon or space;
    the remainder has no influence.  Stopped at the end or at such a
    digit, the result is the result for the consumed prefix alone.
    Stopped at an unrecognized character, the function returns at
    once: the stores made at the separators stay, the pending number
    is not stored and [rule_n] keeps its value. *)
Theorem parse_rule_nums_stops :
  forall rules_str st,
    exists rest,
      rules_str = String.append (consumed rules_str) rest /\
      stopped_at (stop_of rules_str) rest /\
      (stop_of rules_str = Overflow ->
       exists rules' acc indx,
         parse_loop (consumed rules_str) (fst st) 0 0 = (rules', Out acc indx) /\
         25 < acc) /\
      parse_rule_nums rules_str st =
        match stop_of rules_str with
        | Unrecognized => (stores (consumed rules_str) (fst st), snd st)
        | _ => parse_rule_nums (consumed rules_str) st
        end.
Proof.
  intros rules_str st.
  destruct (parse_loop_scan rules_str (fst st) 0 0)
    as (rest & Hrest & Hstop & rules' & acc' & indx' & Hp & Hov & Hc).
  exists rest. unfold consumed, stop_of, stores, parse_rule_nums.
  split; [exact Hrest|]. split; [exact Hstop|]. split.
  - intros Hw. exists rules', acc', indx'. split; [exact Hp|apply Hov, Hw].
  - rewrite Hc, Hp. destruct (snd (scan rules_str 0)); reflexivity.
Qed.

(** * Further properties of the engine *)

(** ** The row update, cell by cell *)

Section Cells.

Lemma land_63 p : Z.land p 63 = p mod 64.
Proof. change 63 with (Z.ones 6). apply Z.land_ones. lia. Qed.

Lemma shiftr_6 p : Z.shiftr p 6 = p / 64.
Proof. apply Z.shiftr_div_pow2. lia. Qed.

Lemma cell_at (row : list Z) (c : nat) o :
  0 <= o < 64 ->
  cell row (64 * Z.of_nat c + o) = Z.testbit (row !!! c) (63 - o).
Proof.
  intros Ho. unfold cell. rewrite shiftr_6, land_63.
  replace ((64 * Z.of_nat c + o) / 64) with (Z.of_nat c)
    by (apply (Z.div_unique _ 64 _ o); lia).
  replace ((64 * Z.of_nat c + o) mod 64) with o
    by (apply (Z.mod_unique _ 64 (Z.of_nat c) o); lia).
  rewrite Nat2Z.id. reflexivity.
Qed.

Lemma ring_left_cases n p :
  0 <= p < n -> ring_left n p = if p =? 0 then n - 1 else p - 1.
Proof.
  intros Hp. unfold ring_left. destruct (Z.eqb_spec p 0) as [->|Hne].
  - apply Z.mod_small. lia.
  - replace (p + n - 1) with (p - 1 + 1 * n) by lia.
    rewrite Z.mod_add by lia. apply Z.mod_small. lia.
Qed.

Lemma ring_right_cases n p :
  0 <= p < n -> ring_right n p = if p =? n - 1 then 0 else p + 1.
Proof.
  intros Hp. unfold ring_right. destruct (Z.eqb_spec p (n - 1)) as [->|Hne].
  - replace (n - 1 + 1) with n by lia. apply Z.mod_same. lia.
  - apply Z.mod_small. lia.
Qed.

Lemma is_word_lookup (row : list Z) (c : nat) :
  Forall is_word row -> (c < length row)%nat -> is_word (row !!! c).
Proof.
  intros Hrow Hc. apply (Forall_lookup_1 _ _ c _ Hrow).
  apply list_lookup_lookup_total_lt, Hc.
Qed.

(** A word computed from the toroidal neighbours of column [c] holds,
    at each of its 64 cells, the rule's entry for the three cells
    around it on the ring. *)
Lemma cell_of_word w rule (prev cur new : list Z) (c : nat) o :
  (c < w)%nat -> 0 <= o < 64 ->
  length cur = w -> Forall is_word cur ->
  new !!! c =
    ca1d_rule_apply rule (cur !!! left_col w c) (cur !!! c)
      (cur !!! right_col w c) (prev !!! c) ->
  let n := 64 * Z.of_nat w in
  let p := 64 * Z.of_nat c + o in
  cell new p =
    xorb (Z.testbit rule
            (4 * Z.b2z (cell cur (ring_left n p)) + 2 * Z.b2z (cell cur p)
             + Z.b2z (cell cur (ring_right n p))))
         (cell prev p).
Proof.
  intros Hc Ho Hlen Hwords Hnew n p. subst n p.
  assert (Hwc : is_word (cur !!! c)) by (apply is_word_lookup; [assumption|lia]).
  assert (Hwr : is_word (cur !!! right_col w c)).
  { apply is_word_lookup; [assumption|]. unfold right_col.
    destruct (Nat.eqb_spec c (w - 1)); lia. }
  rewrite ring_left_cases, ring_right_cases by lia.
  rewrite !(cell_at _ c o) by assumption. rewrite Hnew.
  rewrite ca1d_rule_apply_unfold, Z.lxor_spec, testbit_rule_lookup by lia.
  f_equal. f_equal. unfold pattern_at.
  rewrite testbit_left_cells, testbit_right_cells by (assumption || lia).
  f_equal; [f_equal|]; f_equal; f_equal.
  - (* the left neighbour *)
    unfold left_col.
    destruct (Z.eqb_spec (63 - o) 63) as [Ho0|Ho0].
    + assert (o = 0) by lia. subst o.
      destruct (Nat.eqb_spec c 0) as [->|Hc0].
      * destruct (Z.eqb_spec (64 * Z.of_nat 0 + 0) 0); [|lia].
        replace (64 * Z.of_nat w - 1) with (64 * Z.of_nat (w - 1) + 63) by lia.
        rewrite cell_at by lia. reflexivity.
      * destruct (Z.eqb_spec (64 * Z.of_nat c + 0) 0); [lia|].
        replace (64 * Z.of_nat c + 0 - 1) with (64 * Z.of_nat (c - 1) + 63) by lia.
        rewrite cell_at by lia. reflexivity.
    + destruct (Z.eqb_spec (64 * Z.of_nat c + o) 0); [lia|].
      replace (64 * Z.of_nat c + o - 1) with (64 * Z.of_nat c + (o - 1)) by lia.
      rewrite cell_at by lia. f_equal. lia.
  - (* the right neighbour *)
    unfold right_col.
    destruct (Z.eqb_spec (63 - o) 0) as [Ho63|Ho63].
    + assert (o = 63) by lia. subst o.
      destruct (Nat.eqb_spec c (w - 1)) as [->|Hc1].
      * destruct (Z.eqb_spec (64 * Z.of_nat (w - 1) + 63) (64 * Z.of_nat w - 1)); [|lia].
        change (cell cur 0) with (cell cur (64 * Z.of_nat 0 + 0)).
        rewrite cell_at by lia. reflexivity.
      * destruct (Z.eqb_spec (64 * Z.of_nat c + 63) (64 * Z.of_nat w - 1)); [lia|].
        replace (64 * Z.of_nat c + 63 + 1) with (64 * Z.of_nat (c + 1) + 0) by lia.
        rewrite cell_at by lia. reflexivity.
    + destruct (Z.eqb_spec (64 * Z.of_nat c + o) (64 * Z.of_nat w - 1)); [lia|].
      replace (64 * Z.of_nat c + o + 1) with (64 * Z.of_nat c + (o + 1)) by lia.
      rewrite cell_at by lia. f_equal. lia.
Qed.

End Cells.

(** X1.  Both row updates compute an elementary cellular automaton on
    a ring of [64 * width] cells, numbered as [shade_pixel] shows them
    (cell [p] is bit [63 - p mod 64] of word [p / 64]): the new cell
    [p] is the entry of the rule of its word for the old cells [p - 1],
    [p], [p + 1] (taken around the ring), XOR the cell [p] of the carry
    row.  The statement on the
    rule-list row update is for [rule_n <> 0], which its [i % rule_n]
    needs. *)
Theorem row_update_cellwise :
  forall g prev cur (next : list Z) p,
    (1 <= width g)%nat -> length next = width g -> length cur = width g ->
    Forall is_word cur -> 0 <= p < 64 * Z.of_nat (width g) ->
    let n := 64 * Z.of_nat (width g) in
    let nb := 4 * Z.b2z (cell cur (ring_left n p)) + 2 * Z.b2z (cell cur p)
              + Z.b2z (cell cur (ring_right n p)) in
    (rule_n g <> 0 ->
     cell (ca1d_rule_apply_row g prev cur next) p =
       xorb (Z.testbit (plain_rule g (Z.to_nat (p / 64))) nb) (cell prev p)) /\
    cell (ca1d_meta_rule_apply_row g prev cur next) p =
      xorb (Z.testbit (meta_rule_at g cur (Z.to_nat (p / 64))) nb) (cell prev p).
Proof.
  intros g prev cur next p Hw Hnext Hcur Hwords Hp n nb. subst n nb.
  pose proof (Z.div_mod p 64 ltac:(lia)) as Hdm.
  pose proof (Z.mod_pos_bound p 64 ltac:(lia)) as Ho.
  assert (Hq : 0 <= p / 64 < Z.of_nat (width g))
    by (split; [apply Z.div_pos; lia|apply Z.div_lt_upper_bound; lia]).
  set (c := Z.to_nat (p / 64)). set (o := p mod 64) in *.
  assert (Hc : (c < width g)%nat) by (subst c; lia).
  assert (Hpc : p = 64 * Z.of_nat c + o) by (subst c; rewrite Z2Nat.id; lia).
  clearbody c o. clear Hdm Hq. subst p.
  split.
  - intros _. apply (cell_of_word (width g)); try assumption.
    apply list_lookup_total_correct, ca1d_rule_apply_row_lookup; assumption.
  - apply (cell_of_word (width g)); try assumption.
    apply list_lookup_total_correct, ca1d_meta_rule_apply_row_lookup; assumption.
Qed.

Lemma row_update_cellwise_witness :
  cell (ca1d_rule_apply_row (Globals 1 2 1 [110] 0 0) [0] [1] [0]) 62 = true.
Proof.
  pose proof (row_update_cellwise (Globals 1 2 1 [110] 0 0) [0] [1] [0] 62
                ltac:(simpl; lia) eq_refl eq_refl
                ltac:(repeat constructor; unfold is_word; lia)
                ltac:(simpl; lia)) as H.
  cbv zeta in H. rewrite (proj1 H ltac:(simpl; lia)). vm_compute. reflexivity.
Defined.

(** ** Sampling *)

(** X2.  [shade_pixel] hands out the foreground pixel exactly when the
    cell at bit index [i] of row [j] is set, that is bit
    [63 - i mod 64] of word [i / 64], and the background pixel
    otherwise. *)
Theorem shade_pixel_select :
  forall steps i j bg fg,
    0 <= i -> 0 <= bg < 2 ^ 32 -> 0 <= fg < 2 ^ 32 ->
    shade_pixel steps i j bg fg =
      (if cell (steps !!! Z.to_nat j) i then fg else bg) /\
    cell (steps !!! Z.to_nat j) i =
      Z.testbit ((steps !!! Z.to_nat j) !!! Z.to_nat (i / 64)) (63 - i mod 64).
Proof.
  intros steps i j bg fg Hi Hbg Hfg.
  assert (Hk : 0 <= 63 - Z.land i 63).
  { rewrite land_63. pose proof (Z.mod_pos_bound i 64 ltac:(lia)). lia. }
  split.
  - unfold shade_pixel, cell. cbv zeta. rewrite BIT_TO_MAX_cases by exact Hk.
    destruct (Z.testbit _ (63 - Z.land i 63)).
    + change (not64 (2 ^ 64 - 1)) with 0.
      change (2 ^ 64 - 1) with (Z.ones 64).
      rewrite Z.land_ones, Z.land_0_r, Z.lor_0_r by lia.
      rewrite (Z.mod_small fg) by lia. apply Z.mod_small. lia.
    + change (not64 0) with (Z.ones 64).
      rewrite Z.land_ones, Z.land_0_r, Z.lor_0_l by lia.
      rewrite (Z.mod_small bg) by lia. apply Z.mod_small. lia.
  - unfold cell. rewrite shiftr_6, land_63. reflexivity.
Qed.

Lemma shade_pixel_select_witness :
  shade_pixel [[1]] 63 0 0xffffff 0 = 0.
Proof.
  pose proof (shade_pixel_select [[1]] 63 0 0xffffff 0
                ltac:(lia) ltac:(lia) ltac:(lia)) as H.
  rewrite (proj1 H). vm_compute. reflexivity.
Defined.

(** X3.  [allocate_backing_pixmap] rounds the width of the widget up
    to the next multiple of 64, so that the pixmap holds whole words;
    a width above [2^32 - 64] that is not a multiple of 64 wraps
    around to 0. *)
Theorem backing_width_round_up :
  forall w,
    0 <= w < 2 ^ 32 ->
    (w <= 2 ^ 32 - 64 ->
     backing_width w mod 64 = 0 /\ w <= backing_width w < w + 64) /\
    (2 ^ 32 - 64 < w -> backing_width w = 0).
Proof.
  intros w Hw. unfold backing_width, u32. rewrite land_63.
  change (2 ^ 32) with 4294967296 in *.
  destruct (Z.eqb_spec (w mod 64) 0) as [H0|Hne]; split; intros Hb.
  - split; [exact H0|lia].
  - apply Z.mod_divide in H0; [|lia]. destruct H0 as [q Hq]. lia.
  - assert (Hw' : w <> 4294967296 - 64) by (intros ->; apply Hne; reflexivity).
    assert (Hs : (w + 64) mod 4294967296 = w + 64) by (apply Z.mod_small; lia).
    rewrite Hs.
    pose proof (Z.mod_pos_bound w 64 ltac:(lia)) as Hm.
    pose proof (Z.div_mod w 64 ltac:(lia)) as Hd.
    assert (Hr : w + 64 - w mod 64 = 64 * (w / 64 + 1)) by lia.
    rewrite Hr.
    assert (Hsmall : 0 <= 64 * (w / 64 + 1) < 4294967296) by lia.
    rewrite (Z.mod_small _ _ Hsmall). split; [|lia].
    rewrite Z.mul_comm. apply Z.mod_mul. lia.
  - pose proof (Z.mod_pos_bound w 64 ltac:(lia)) as Hm.
    pose proof (Z.div_mod w 64 ltac:(lia)) as Hd.
    assert (Hq : w / 64 = 67108863) by lia.
    assert (Hs : (w + 64) mod 4294967296 = w + 64 - 4294967296).
    { symmetry. apply (Z.mod_unique _ _ 1); lia. }
    rewrite Hs.
    replace (w + 64 - 4294967296 - w mod 64) with ((-1) * 4294967296 + 4294967296) by lia.
    rewrite Z.add_comm, Z.mod_add by lia. reflexivity.
Qed.

Lemma backing_width_round_up_witness :
  backing_width 100 mod 64 = 0 /\ 100 <= backing_width 100 < 100 + 64.
Proof.
  apply (backing_width_round_up 100 ltac:(lia)). lia.
Defined.

(** ** The matrix of a run *)

Section Matrix.

Variable g : globals.
Hypothesis width_pos : (1 <= width g)%nat.

Lemma ca1d_run_run_of init steps :
  (2 <= height g)%nat -> well_formed g steps -> (width g <= length init)%nat ->
  run_of g (take (width g) init) (ca1d_run g init steps).
Proof. intros Hh Hwf Hinit. exact (ca1d_run_rows g width_pos init steps Hh Hwf Hinit). Qed.

Lemma rows_below (P : nat -> Prop) h :
  (forall k, (k < h)%nat -> (forall j, (j < k)%nat -> P j) -> P k) ->
  forall k, (k < h)%nat -> P k.
Proof.
  intros Hstep.
  assert (H : forall k, forall j, (j < k)%nat -> (j < h)%nat -> P j).
  { induction k as [|k IH]; intros j Hj Hjh; [lia|].
    apply Hstep; [assumption|]. intros i Hi. apply IH; lia. }
  intros k Hk. apply (H (S k)); lia.
Qed.

(** Two matrices that start with the same row and obey the recurrence
    of a run agree on every row. *)
Lemma rows_agree (m m' : list (list Z)) h :
  m !!! 0%nat = m' !!! 0%nat ->
  (forall k, (1 <= k < h)%nat ->
     m !!! k = next_row g (carry_row g m k) (m !!! (k - 1)%nat)) ->
  (forall k, (1 <= k < h)%nat ->
     m' !!! k = next_row g (carry_row g m' k) (m' !!! (k - 1)%nat)) ->
  forall k, (k < h)%nat -> m !!! k = m' !!! k.
Proof.
  intros H0 Hm Hm'. apply rows_below. intros k Hk IH.
  destruct k as [|k]; [exact H0|].
  rewrite Hm, Hm' by lia. replace (S k - 1)%nat with k by lia.
  rewrite (IH k) by lia. f_equal. unfold carry_row.
  destruct (Nat.ltb_spec (S k) 2); [reflexivity|].
  destruct (reversible g =? 0); [reflexivity|]. apply IH. lia.
Qed.

Lemma matrix_ext (m m' : list (list Z)) :
  well_formed g m -> well_formed g m' ->
  (forall k, (k < height g)%nat -> m !!! k = m' !!! k) -> m = m'.
Proof.
  intros [Hlen _] [Hlen' _] Hrows. apply list_eq. intros k.
  destruct (Nat.lt_ge_cases k (height g)) as [Hk|Hk].
  - rewrite !list_lookup_lookup_total_lt by lia. f_equal. apply Hrows, Hk.
  - rewrite !lookup_ge_None_2 by lia. reflexivity.
Qed.

Lemma run_of_unique row0 m m' : run_of g row0 m -> run_of g row0 m' -> m = m'.
Proof.
  intros (Hwf & H0 & Hm) (Hwf' & H0' & Hm').
  apply matrix_ext; try assumption.
  apply rows_agree; [congruence|assumption|assumption].
Qed.

Lemma next_row_words prev cur :
  Forall is_word prev -> length prev = width g ->
  Forall is_word (next_row g prev cur).
Proof.
  intros Hprev Hlen. apply Forall_lookup_2. intros j x Hx.
  assert (Hj : (j < width g)%nat).
  { apply lookup_lt_Some in Hx. rewrite next_row_length in Hx. exact Hx. }
  unfold next_row in Hx. rewrite row_of_lookup in Hx by assumption.
  injection Hx as <-. apply ca1d_rule_apply_range.
  apply is_word_lookup; [assumption|lia].
Qed.

Lemma zero_row_words n : Forall is_word (replicate n 0).
Proof. apply Forall_replicate. unfold is_word. lia. Qed.

Lemma run_of_words row0 m :
  run_of g row0 m -> Forall is_word row0 -> length row0 = width g ->
  forall k, (k < height g)%nat ->
    Forall is_word (m !!! k) /\ length (m !!! k) = width g.
Proof.
  intros (Hwf & H0 & Hm) Hrow0 Hlen0. apply rows_below. intros k Hk IH.
  split; [|apply (well_formed_row g width_pos m k Hwf Hk)].
  destruct k as [|k]; [rewrite H0; exact Hrow0|].
  rewrite Hm by lia. unfold carry_row.
  destruct (Nat.ltb_spec (S k) 2).
  - apply next_row_words; [apply zero_row_words|apply length_replicate].
  - destruct (reversible g =? 0).
    + apply next_row_words; [apply zero_row_words|apply length_replicate].
    + destruct (IH (S k - 2)%nat ltac:(lia)) as [Hw Hl].
      apply next_row_words; assumption.
Qed.

(** In a reversible run the row update, fed the rows [k - 1] and [k]
    in the place of the rows [k - 2] and [k - 1], gives back row
    [k - 2]. *)
Lemma run_of_step_back row0 m k :
  run_of g row0 m -> reversible g <> 0 -> (2 <= k < height g)%nat ->
  next_row g (m !!! k) (m !!! (k - 1)%nat) = m !!! (k - 2)%nat.
Proof.
  intros (Hwf & H0 & Hm) Hrev Hk.
  apply (list_eq_same_length _ _ (width g)).
  - apply (well_formed_row g width_pos m (k - 2) Hwf). lia.
  - apply next_row_length.
  - intros j x y Hj Hx Hy.
    apply list_lookup_total_correct in Hx, Hy. subst x y.
    rewrite next_row_word by assumption.
    rewrite (Hm k) by lia. rewrite next_row_word by assumption.
    rewrite carry_row_word by assumption.
    destruct (Nat.ltb_spec k 2); [lia|].
    destruct (Z.eqb_spec (reversible g) 0); [contradiction|].
    rewrite !ca1d_rule_apply_unfold.
    rewrite <- Z.lxor_assoc, Z.lxor_nilpotent, Z.lxor_0_l. reflexivity.
Qed.

Lemma run_of_backwards row0 row0' m m' :
  run_of g row0 m -> run_of g row0' m' -> reversible g <> 0 ->
  (2 <= height g)%nat ->
  m !!! (height g - 1)%nat = m' !!! (height g - 1)%nat ->
  m !!! (height g - 2)%nat = m' !!! (height g - 2)%nat ->
  forall n k, (k + n = height g - 2)%nat ->
    m !!! k = m' !!! k /\ m !!! (k + 1)%nat = m' !!! (k + 1)%nat.
Proof.
  intros Hm Hm' Hrev Hh Hlast Hlast2.
  induction n as [|n IH]; intros k Hk.
  - replace k with (height g - 2)%nat by lia.
    replace (height g - 2 + 1)%nat with (height g - 1)%nat by lia.
    split; assumption.
  - destruct (IH (k + 1)%nat ltac:(lia)) as [H1 H2].
    split; [|exact H1].
    replace (k + 1 + 1)%nat with (k + 2)%nat in H2 by lia.
    pose proof (run_of_step_back row0 m (k + 2) Hm Hrev ltac:(lia)) as Hb.
    pose proof (run_of_step_back row0' m' (k + 2) Hm' Hrev ltac:(lia)) as Hb'.
    replace (k + 2 - 1)%nat with (k + 1)%nat in Hb, Hb' by lia.
    replace (k + 2 - 2)%nat with k in Hb, Hb' by lia.
    rewrite <- Hb, <- Hb', H1, H2. reflexivity.
Qed.

End Matrix.

(** X4.  A run ends with a matrix of [height] rows of [width] words
    whose row 0 is the first [width] words of the initial row, and it
    keeps words in 64 bits: when the words of the initial row are
    64-bit words, so is every word of every row, whatever the matrix
    held before.  The run is one the
    program completes: with the meta rule off, [rule_n] is not 0 (the
    rule-list row update computes [i % rule_n]). *)
Theorem run_words_64bit :
  forall g init steps,
    (meta_rule g = 0 -> rule_n g <> 0) ->
    (1 <= width g)%nat -> (2 <= height g)%nat ->
    well_formed g steps -> (width g <= length init)%nat ->
    Forall is_word init ->
    well_formed g (ca1d_run g init steps) /\
    ca1d_run g init steps !!! 0%nat = take (width g) init /\
    Forall (Forall is_word) (ca1d_run g init steps).
Proof.
  intros g init steps Hrn Hw Hh Hwf Hinit Hwords.
  pose proof (ca1d_run_run_of g Hw init steps Hh Hwf Hinit) as Hrun.
  split; [apply Hrun|]. split; [apply Hrun|].
  apply Forall_lookup_2. intros k row Hrow.
  assert (Hk : (k < height g)%nat).
  { apply lookup_lt_Some in Hrow. destruct Hrun as [[Hlen _] _]. lia. }
  apply list_lookup_total_correct in Hrow. subst row.
  apply (run_of_words g Hw (take (width g) init) _ Hrun); [| |exact Hk].
  - apply Forall_take, Hwords.
  - rewrite length_take. lia.
Qed.

Lemma run_words_64bit_witness :
  Forall (Forall is_word) (ca1d_run (Globals 1 3 1 [110] 1 0) [1] [[0]; [0]; [0]]).
Proof.
  apply (run_words_64bit (Globals 1 3 1 [110] 1 0) [1] [[0]; [0]; [0]]
           ltac:(simpl; intros; lia) ltac:(simpl; lia) ltac:(simpl; lia)
           ltac:(split; [reflexivity|repeat constructor])
           ltac:(simpl; lia)
           ltac:(repeat constructor; unfold is_word; lia)).
Defined.

(** X5.  The matrix a run leaves does not depend on what the matrix
    held before: [steps] is never cleared between runs, and every row
    is overwritten.  The run is one the
    program completes: with the meta rule off, [rule_n] is not 0 (the
    rule-list row update computes [i % rule_n]). *)
Theorem run_overwrites_matrix :
  forall g init steps steps',
    (meta_rule g = 0 -> rule_n g <> 0) ->
    (1 <= width g)%nat -> (2 <= height g)%nat ->
    well_formed g steps -> well_formed g steps' ->
    (width g <= length init)%nat ->
    ca1d_run g init steps = ca1d_run g init steps'.
Proof.
  intros g init steps steps' Hrn Hw Hh Hwf Hwf' Hinit.
  apply (run_of_unique g Hw (take (width g) init));
    apply ca1d_run_run_of; assumption.
Qed.

Lemma run_overwrites_matrix_witness :
  ca1d_run (Globals 1 3 1 [110] 1 0) [1] [[0]; [0]; [0]] =
    ca1d_run (Globals 1 3 1 [110] 1 0) [1] [[5]; [6]; [7]].
Proof.
  apply (run_overwrites_matrix (Globals 1 3 1 [110] 1 0) [1]
           [[0]; [0]; [0]] [[5]; [6]; [7]]
           ltac:(simpl; intros; lia) ltac:(simpl; lia) ltac:(simpl; lia)
           ltac:(split; [reflexivity|repeat constructor])
           ltac:(split; [reflexivity|repeat constructor])
           ltac:(simpl; lia)).
Defined.

(** X6.  A longer run extends a shorter one: with the other globals
    and the initial row the same, the rows of a run of [height] steps
    are the first [height] rows of a run of more steps.  The run is one the
    program completes: with the meta rule off, [rule_n] is not 0 (the
    rule-list row update computes [i % rule_n]). *)
Theorem run_prefix :
  forall g h' init steps steps' k,
    (meta_rule g = 0 -> rule_n g <> 0) ->
    (1 <= width g)%nat -> (2 <= height g <= h')%nat ->
    well_formed g steps -> well_formed (with_height g h') steps' ->
    (width g <= length init)%nat -> (k < height g)%nat ->
    ca1d_run (with_height g h') init steps' !!! k = ca1d_run g init steps !!! k.
Proof.
  intros g h' init steps steps' k Hrn Hw Hh Hwf Hwf' Hinit Hk.
  destruct (ca1d_run_run_of g Hw init steps ltac:(lia) Hwf Hinit)
    as (_ & H0 & Hm).
  destruct (ca1d_run_run_of (with_height g h') Hw init steps'
              ltac:(simpl; lia) Hwf' Hinit) as (_ & H0' & Hm').
  apply (rows_agree g Hw _ _ (height g)); [| |assumption|assumption].
  - rewrite H0, H0'. reflexivity.
  - intros j Hj. apply (Hm' j). simpl. lia.
Qed.

Lemma run_prefix_witness :
  ca1d_run (with_height (Globals 1 2 1 [110] 1 0) 3) [1] [[0]; [0]; [0]] !!! 1%nat =
    ca1d_run (Globals 1 2 1 [110] 1 0) [1] [[0]; [0]] !!! 1%nat.
Proof.
  apply (run_prefix (Globals 1 2 1 [110] 1 0) 3 [1] [[0]; [0]] [[0]; [0]; [0]] 1
           ltac:(simpl; intros; lia) ltac:(simpl; lia) ltac:(simpl; lia)
           ltac:(split; [reflexivity|repeat constructor])
           ltac:(split; [reflexivity|repeat constructor])
           ltac:(simpl; lia) ltac:(simpl; lia)).
Defined.

(** X7.  A reversible run loses nothing: two reversible runs under the
    same globals whose last two rows agree are the same matrix, so
    they started from the same initial row.  The run is one the
    program completes: with the meta rule off, [rule_n] is not 0 (the
    rule-list row update computes [i % rule_n]). *)
Theorem reversible_run_injective :
  forall g init init' steps steps',
    (meta_rule g = 0 -> rule_n g <> 0) ->
    (1 <= width g)%nat -> (2 <= height g)%nat ->
    well_formed g steps -> well_formed g steps' ->
    (width g <= length init)%nat -> (width g <= length init')%nat ->
    reversible g <> 0 ->
    ca1d_run g init steps !!! (height g - 1)%nat =
      ca1d_run g init' steps' !!! (height g - 1)%nat ->
    ca1d_run g init steps !!! (height g - 2)%nat =
      ca1d_run g init' steps' !!! (height g - 2)%nat ->
    ca1d_run g init steps = ca1d_run g init' steps' /\
    take (width g) init = take (width g) init'.
Proof.
  intros g init init' steps steps' Hrn Hw Hh Hwf Hwf' Hinit Hinit' Hrev H1 H2.
  pose proof (ca1d_run_run_of g Hw init steps Hh Hwf Hinit) as Hm.
  pose proof (ca1d_run_run_of g Hw init' steps' Hh Hwf' Hinit') as Hm'.
  assert (Hrows : forall k, (k < height g)%nat ->
            ca1d_run g init steps !!! k = ca1d_run g init' steps' !!! k).
  { intros k Hk.
    destruct (Nat.eq_dec k (height g - 1)%nat) as [->|Hne]; [exact H1|].
    assert (Hkn : (k + (height g - 2 - k) = height g - 2)%nat) by lia.
    exact (proj1 (run_of_backwards g Hw _ _ _ _ Hm Hm' Hrev Hh H1 H2
                    (height g - 2 - k)%nat k Hkn)). }
  split.
  - apply (matrix_ext g Hw); [apply Hm|apply Hm'|exact Hrows].
  - destruct Hm as (_ & H0 & _), Hm' as (_ & H0' & _).
    rewrite <- H0, <- H0'. apply Hrows. lia.
Qed.

Lemma reversible_run_injective_witness :
  take 1 [1] = take 1 [1; 7].
Proof.
  apply (reversible_run_injective (Globals 1 3 1 [110] 1 0) [1] [1; 7]
           [[0]; [0]; [0]] [[5]; [6]; [7]]
           ltac:(simpl; intros; lia) ltac:(simpl; lia) ltac:(simpl; lia)
           ltac:(split; [reflexivity|repeat constructor])
           ltac:(split; [reflexivity|repeat constructor])
           ltac:(simpl; lia) ltac:(simpl; lia) ltac:(simpl; lia)
           ltac:(vm_compute; reflexivity) ltac:(vm_compute; reflexivity)).
Defined.

(** ** Allocation *)

Section Allocate.

Lemma centre_bit_pow2 w :
  centre_bit w = 2 ^ (63 - (Z.of_nat w * 32) mod 64) /\
  0 <= (Z.of_nat w * 32) mod 64 < 64.
Proof.
  pose proof (Z.mod_pos_bound (Z.of_nat w * 32) 64 ltac:(lia)) as He.
  split; [|exact He]. unfold centre_bit.
  assert (Hmm : u64 (Z.of_nat w * 32) mod 64 = (Z.of_nat w * 32) mod 64).
  { unfold u64. apply Z.mod_mod_divide. exists (2 ^ 58). reflexivity. }
  rewrite Hmm, Z.shiftl_1_l. apply u64_small. split.
  - apply Z.pow_nonneg. lia.
  - apply Z.pow_lt_mono_r; lia.
Qed.

Lemma allocate_init_lookup w (c : nat) :
  (c < w)%nat ->
  (<[(w / 2)%nat := centre_bit w]> (replicate w 0)) !!! c =
    if (c =? w / 2)%nat then centre_bit w else 0.
Proof.
  intros Hc. destruct (Nat.eqb_spec c (w / 2)) as [->|Hne].
  - apply list_lookup_total_insert_eq. rewrite length_replicate. exact Hc.
  - rewrite list_lookup_total_insert_ne by congruence.
    apply lookup_total_replicate_2, Hc.
Qed.

End Allocate.

(** X8.  [ca1d_allocate] leaves an initial row of [width] 64-bit words
    with exactly one cell set, the cell [32 * width] in the middle of
    the ring of [64 * width] cells, and a matrix of [height] rows of
    [width] words; a run from this allocation fills the matrix,
    starting from that row.  The run is one the
    program completes: with the meta rule off, [rule_n] is not 0 (the
    rule-list row update computes [i % rule_n]). *)
Theorem ca1d_allocate_centre :
  forall g init zeroes steps,
    ca1d_allocate g = (init, zeroes, steps) -> (1 <= width g)%nat ->
    length init = width g /\
    Forall is_word init /\
    (forall p, 0 <= p < 64 * Z.of_nat (width g) ->
       cell init p = (p =? 32 * Z.of_nat (width g))) /\
    zeroes = replicate (width g) 0 /\
    well_formed g steps /\
    ((2 <= height g)%nat -> (meta_rule g = 0 -> rule_n g <> 0) ->
     run_of g init (ca1d_run g init steps)).
Proof.
  intros g init zeroes steps Halloc Hw.
  unfold ca1d_allocate in Halloc. cbv zeta in Halloc.
  assert (Hi : init = <[(width g / 2)%nat := centre_bit (width g)]>
                        (replicate (width g) 0)) by congruence.
  assert (Hz : zeroes = replicate (width g) 0) by congruence.
  assert (Hs : steps = replicate (height g) (replicate (width g) 0))
    by congruence.
  clear Halloc. subst init zeroes steps.
  destruct (centre_bit_pow2 (width g)) as [Hcb He].
  assert (Hlen : length (<[(width g / 2)%nat := centre_bit (width g)]>
                           (replicate (width g) 0)) = width g)
    by (rewrite length_insert; apply length_replicate).
  assert (Hwf : well_formed g (replicate (height g) (replicate (width g) 0))).
  { split; [apply length_replicate|].
    apply Forall_replicate, length_replicate. }
  split; [exact Hlen|]. split; [|split; [|split; [reflexivity|split; [exact Hwf|]]]].
  - apply Forall_insert; [apply Forall_replicate; unfold is_word; lia|].
    rewrite Hcb. split; [apply Z.pow_nonneg; lia|].
    apply Z.pow_lt_mono_r; lia.
  - intros p Hp.
    pose proof (Z.div_mod p 64 ltac:(lia)) as Hdm.
    pose proof (Z.mod_pos_bound p 64 ltac:(lia)) as Ho.
    assert (Hq : 0 <= p / 64 < Z.of_nat (width g))
      by (split; [apply Z.div_pos; lia|apply Z.div_lt_upper_bound; lia]).
    set (c := Z.to_nat (p / 64)). set (o := p mod 64) in *.
    assert (Hc : (c < width g)%nat) by (subst c; lia).
    assert (Hpc : p = 64 * Z.of_nat c + o) by (subst c; rewrite Z2Nat.id; lia).
    clearbody c o. clear Hdm Hq. subst p.
    rewrite cell_at, allocate_init_lookup by assumption.
    pose proof (Nat2Z.inj_div (width g) 2) as Hhalf.
    change (Z.of_nat 2) with 2 in Hhalf.
    pose proof (Z.div_mod (Z.of_nat (width g)) 2 ltac:(lia)) as Hd2.
    pose proof (Z.mod_pos_bound (Z.of_nat (width g)) 2 ltac:(lia)) as Hm2.
    pose proof (Z.div_mod (Z.of_nat (width g) * 32) 64 ltac:(lia)) as Hd64.
    destruct (Nat.eqb_spec c (width g / 2)) as [Hcc|Hcc].
    + rewrite Hcb, Z.pow2_bits_eqb by lia.
      destruct (Z.eqb_spec (63 - (Z.of_nat (width g) * 32) mod 64) (63 - o)),
               (Z.eqb_spec (64 * Z.of_nat c + o) (32 * Z.of_nat (width g)));
        try reflexivity; exfalso; lia.
    + rewrite Z.bits_0.
      destruct (Z.eqb_spec (64 * Z.of_nat c + o) (32 * Z.of_nat (width g)));
        [exfalso|reflexivity].
      apply Hcc. apply Nat2Z.inj. lia.
  - intros Hh _.
    pose proof (ca1d_run_run_of g Hw _ _ Hh Hwf ltac:(rewrite Hlen; lia)) as Hrun.
    rewrite take_ge in Hrun by lia. exact Hrun.
Qed.

Lemma ca1d_allocate_centre_witness :
  cell (<[1%nat := centre_bit 3]> (replicate 3 0)) 96 = (96 =? 32 * 3).
Proof.
  pose proof (ca1d_allocate_centre (Globals 3 4 1 [110] 0 0) _ _ _ eq_refl
                ltac:(simpl; lia)) as H.
  exact (proj1 (proj2 (proj2 H)) 96 ltac:(simpl; lia)).
Defined.

(** ** Rule strings *)

Section RuleStrings.

Lemma append_empty_r s : String.append s EmptyString = s.
Proof. induction s as [|ch s IH]; simpl; [reflexivity|rewrite IH; reflexivity]. Qed.

Lemma is_digit_classify ch :
  is_digit ch = true -> classify ch = Digit /\ 0 <= code ch - 48 <= 9.
Proof.
  unfold is_digit, classify. intros H. cbv zeta.
  apply andb_true_iff in H as [H1 H2]. rewrite H1, H2.
  apply Z.leb_le in H1, H2.
  destruct (Z.eqb_spec (code ch) 0); [lia|]. simpl. split; [reflexivity|lia].
Qed.

Lemma u8_small z : 0 <= z < 256 -> u8 z = z.
Proof. intros H. unfold u8. apply Z.mod_small. exact H. Qed.

Lemma u8_range z : 0 <= u8 z < 256.
Proof. unfold u8. apply Z.mod_pos_bound. reflexivity. Qed.

(** Reading digits only makes the number grow: by a factor of ten when
    a digit follows. *)
Lemma number_of_grows f : forall acc,
  string_forall is_digit f = true -> 0 <= acc ->
  acc <= number_of acc f /\ (f <> EmptyString -> 10 * acc <= number_of acc f).
Proof.
  induction f as [|ch f IH]; intros acc Hf Hacc; simpl.
  - split; [lia|]. intros H. contradiction.
  - simpl in Hf. apply andb_true_iff in Hf as [Hch Hf].
    destruct (is_digit_classify ch Hch) as [_ Hd].
    destruct (IH (acc * 10 + (code ch - 48)) Hf ltac:(lia)) as [Hge _].
    split; [lia|]. intros _. lia.
Qed.

(** The loop reads a run of digits that stays within the bound into
    the accumulator, modulo 256. *)
Lemma parse_loop_digits f : forall acc rules indx rest,
  string_forall is_digit f = true -> 0 <= acc <= 255 ->
  number_of acc f <= 259 ->
  parse_loop (String.append f rest) rules acc indx =
    parse_loop rest rules (u8 (number_of acc f)) indx.
Proof.
  induction f as [|ch f IH]; intros acc rules indx rest Hf Hacc Hnum.
  - simpl. rewrite u8_small by lia. reflexivity.
  - simpl in Hf. apply andb_true_iff in Hf as [Hch Hf].
    destruct (is_digit_classify ch Hch) as [Hcls Hd].
    simpl String.append. simpl parse_loop. rewrite Hcls.
    simpl number_of in *.
    destruct (number_of_grows f (acc * 10 + (code ch - 48)) Hf ltac:(lia))
      as [Hge Hten].
    destruct (Z.ltb_spec 25 acc); [lia|].
    assert (Hu : u8 (u8 (acc * 10) + (code ch - 48)) = u8 (acc * 10 + (code ch - 48))).
    { unfold u8. apply Z.add_mod_idemp_l. lia. }
    rewrite Hu.
    destruct f as [|ch' f'].
    + reflexivity.
    + specialize (Hten ltac:(discriminate)).
      rewrite u8_small by lia. apply IH; [exact Hf|lia|exact Hnum].
Qed.

Lemma store_all_take_drop vs : forall k (rules : list Z),
  (k + length vs <= length rules)%nat ->
  store_all k vs rules = take k rules ++ vs ++ drop (k + length vs) rules.
Proof.
  induction vs as [|v vs IH]; intros k rules Hlen; simpl.
  - rewrite Nat.add_0_r. symmetry. apply take_drop.
  - simpl in Hlen. rewrite IH by (rewrite length_insert; lia).
    rewrite (take_S_r _ k v) by (apply list_lookup_insert_eq; lia).
    rewrite take_insert_ge by lia. rewrite drop_insert_lt by lia.
    replace (k + S (length vs))%nat with (S k + length vs)%nat by lia.
    rewrite <- app_assoc. reflexivity.
Qed.

Lemma parse_loop_separator sep c rules acc indx :
  classify sep = Separator ->
  parse_loop (String sep c) rules acc indx =
    parse_loop c (<[Z.to_nat indx := acc]> rules) 0 (u8 (indx + 1)).
Proof. intros H. simpl. rewrite H. reflexivity. Qed.

(** The loop on fields joined by a separator, entered at index [k]:
    it leaves through [out], and the store made there completes the
    stores of all the fields. *)
Lemma parse_loop_join sep : classify sep = Separator ->
  forall fields rules (k : nat),
    fields <> [] -> Forall byte_field fields ->
    (k + length fields <= 256)%nat ->
    exists rules' acc,
      parse_loop (join sep fields) rules 0 (Z.of_nat k) =
        (rules', Out acc (Z.of_nat (k + length fields - 1))) /\
      <[(k + length fields - 1)%nat := acc]> rules' =
        store_all k (map value fields) rules.
Proof.
  intros Hsep. induction fields as [|f fs IH]; intros rules k Hne Hall Hlen;
    [contradiction|].
  apply Forall_cons in Hall as [[Hf Hv] Hfs].
  assert (H0 : 0 <= value f).
  { destruct (number_of_grows f 0 Hf ltac:(lia)) as [Hge _]. exact Hge. }
  destruct fs as [|f2 fs'].
  - exists rules, (value f). simpl join. split.
    + rewrite <- (append_empty_r f) at 1.
      rewrite parse_loop_digits by (assumption || unfold value in *; lia).
      fold (value f). rewrite u8_small by lia. simpl.
      repeat f_equal. lia.
    + simpl. f_equal. lia.
  - simpl in Hlen.
    destruct (IH (<[k := value f]> rules) (S k) ltac:(discriminate) Hfs
                ltac:(simpl; lia)) as (rules' & acc & Hloop & Hstore).
    exists rules', acc. split.
    + change (join sep (f :: f2 :: fs'))
        with (String.append f (String sep (join sep (f2 :: fs')))).
      rewrite parse_loop_digits by (assumption || unfold value in *; lia).
      fold (value f). rewrite u8_small by lia.
      rewrite parse_loop_separator by exact Hsep.
      rewrite Nat2Z.id.
      replace (u8 (Z.of_nat k + 1)) with (Z.of_nat (S k))
        by (rewrite u8_small; lia).
      rewrite Hloop.
      replace (k + length (f :: f2 :: fs') - 1)%nat
        with (S k + length (f2 :: fs') - 1)%nat by (simpl; lia).
      reflexivity.
    + replace (k + length (f :: f2 :: fs') - 1)%nat
        with (S k + length (f2 :: fs') - 1)%nat by (simpl; lia).
      rewrite Hstore. reflexivity.
Qed.



Lemma parse_rule_nums_join sep fields rules n :
  classify sep = Separator -> fields <> [] -> Forall byte_field fields ->
  (length fields <= 256)%nat -> length rules = 256%nat ->
  parse_rule_nums (join sep fields) (rules, n) =
    (map value fields ++ drop (length fields) rules,
     u8 (Z.of_nat (length fields))).
Proof.
  intros Hsep Hne Hall Hlen Hrules.
  destruct (parse_loop_join sep Hsep fields rules 0 Hne Hall ltac:(lia))
    as (rules' & acc & Hloop & Hstore).
  unfold parse_rule_nums. cbn [fst snd].
  change 0 with (Z.of_nat 0) at 2. rewrite Hloop. rewrite Nat2Z.id, Hstore.
  rewrite store_all_take_drop by (rewrite length_map; lia).
  rewrite length_map. simpl. f_equal. f_equal.
  destruct fields; [contradiction|]. simpl length. lia.
Qed.

End RuleStrings.

(** X9.  A rule string of up to 256 fields joined by commas (or by
    semicolons), each field a run of digits that denotes a number of
    at most 255, is read as the list of these numbers: they are stored
    from index 0 on, the rest of the table of 256 rules stays, and
    [rule_n] is the number of fields; an empty field counts as 0, and
    with 256 fields [rule_n] wraps around to 0. *)
Theorem parse_rule_list :
  forall sep fields rules n,
    classify sep = Separator -> fields <> [] -> Forall byte_field fields ->
    (length fields <= 256)%nat -> length rules = 256%nat ->
    parse_rule_nums (join sep fields) (rules, n) =
      (map value fields ++ drop (length fields) rules,
       u8 (Z.of_nat (length fields))) /\
    ((length fields <= 255)%nat ->
     snd (parse_rule_nums (join sep fields) (rules, n)) = Z.of_nat (length fields)) /\
    (length fields = 256%nat ->
     snd (parse_rule_nums (join sep fields) (rules, n)) = 0).
Proof.
  intros sep fields rules n Hsep Hne Hall Hlen Hrules.
  rewrite parse_rule_nums_join by assumption. cbn [snd].
  split; [reflexivity|]. split.
  - intros H. apply u8_small. lia.
  - intros ->. reflexivity.
Qed.

Lemma parse_rule_list_witness :
  parse_rule_nums (join "," ["30"; ""; "110"]%string) initial_state =
    (map value ["30"; ""; "110"]%string ++ drop 3 initial_rules, u8 3).
Proof.
  apply (parse_rule_list "," ["30"; ""; "110"]%string initial_rules 1
           eq_refl ltac:(discriminate)
           ltac:(repeat constructor; vm_compute; discriminate)
           ltac:(simpl; lia) eq_refl).
Defined.

(** X10.  The bound of 25 on the accumulator lets the numbers 256 to
    259 through, and the accumulator of 8 bits wraps around: a string
    of digits that denotes 256, 257, 258 or 259 is read as 0, 1, 2
    or 3. *)
Theorem parse_number_wraps :
  forall f rules n,
    string_forall is_digit f = true -> 256 <= value f <= 259 ->
    parse_rule_nums f (rules, n) = (<[0%nat := value f - 256]> rules, 1).
Proof.
  intros f rules n Hf Hv. unfold parse_rule_nums. cbn [fst snd].
  rewrite <- (append_empty_r f) at 1.
  rewrite parse_loop_digits by (assumption || unfold value in *; lia).
  fold (value f). simpl.
  replace (u8 (value f)) with (value f - 256); [reflexivity|].
  unfold u8. apply (Z.mod_unique _ _ 1); lia.
Qed.

Lemma parse_number_wraps_witness :
  parse_rule_nums "257" initial_state = (<[0%nat := value "257" - 256]> initial_rules, 1).
Proof.
  apply (parse_number_wraps "257" initial_rules 1 eq_refl).
  vm_compute. split; discriminate.
Defined.

(** X11.  A number is cut where it grows past the bound: when the
    digits read so far denote a number from 26 to 255 and another
    digit follows, the parser stops there, and the result is that of
    the digits read so far (so 300 is read as 30). *)
Theorem parse_number_cut :
  forall f d rest st,
    string_forall is_digit f = true -> 26 <= value f <= 255 ->
    is_digit d = true ->
    parse_rule_nums (String.append f (String d rest)) st = parse_rule_nums f st.
Proof.
  intros f d rest st Hf Hv Hd. unfold parse_rule_nums.
  rewrite <- (append_empty_r f) at 2.
  rewrite !parse_loop_digits by (assumption || unfold value in *; lia).
  fold (value f). rewrite u8_small by lia.
  destruct (is_digit_classify d Hd) as [Hcls _].
  simpl. rewrite Hcls.
  destruct (Z.ltb_spec 25 (value f)); [reflexivity|lia].
Qed.

Lemma parse_number_cut_witness :
  parse_rule_nums (String.append "30" (String "0" "7,5")) initial_state =
    parse_rule_nums "30" initial_state.
Proof.
  apply (parse_number_cut "30" "0" "7,5" initial_state eq_refl).
  - vm_compute. split; discriminate.
  - reflexivity.
Defined.





(** ** The engine with a single rule *)

Section SingleRuleEngine.

Variable g : globals.
Hypothesis one_rule : rule_n g = 1.
Hypothesis no_meta : meta_rule g = 0.

Lemma single_rule_apply rule c_prev c c_next p :
  SingleRule.ca1d_rule_apply rule c_prev c c_next p =
    ca1d_rule_apply rule c_prev c c_next p.
Proof.
  unfold SingleRule.ca1d_rule_apply, ca1d_rule_apply, rule_lookup, rule_term,
    left_cells, right_cells.
  reflexivity.
Qed.

Lemma single_row_loop prev cur : forall fuel i next,
  SingleRule.row_loop (width g) (rules g !!! 0%nat) fuel prev cur i next =
    rule_row_loop g fuel prev cur i next.
Proof.
  induction fuel as [|fuel IH]; intros i next; simpl; [reflexivity|].
  destruct (i <? width g - 1)%nat; [|reflexivity].
  rewrite IH, single_rule_apply, (rules_at_single g i one_rule). reflexivity.
Qed.

Lemma single_rule_row prev cur next :
  SingleRule.ca1d_rule_apply_row (width g) (rules g !!! 0%nat) prev cur next =
    ca1d_rule_apply_row g prev cur next.
Proof.
  unfold SingleRule.ca1d_rule_apply_row, ca1d_rule_apply_row.
  rewrite single_row_loop, !single_rule_apply.
  destruct (rule_row_loop g (width g) prev cur 1 _) as [i next'].
  rewrite single_rule_apply, (rules_at_single g i one_rule). reflexivity.
Qed.

Lemma single_rule_row_of_ptr steps p :
  SingleRule.row_of_ptr (width g) steps p = deref g steps p.
Proof. destruct p; reflexivity. Qed.

Lemma single_run_loop : forall fuel steps prev cur next i,
  SingleRule.run_loop (width g) (height g) (rules g !!! 0%nat) (reversible g)
    fuel steps prev cur next i =
    run_loop g fuel steps prev cur next i.
Proof.
  induction fuel as [|fuel IH]; intros steps prev cur next i; simpl;
    [reflexivity|].
  unfold row_update. rewrite no_meta. simpl.
  rewrite single_rule_row, !single_rule_row_of_ptr.
  destruct (height g <=? i + 1)%nat; [reflexivity|]. apply IH.
Qed.

End SingleRuleEngine.

(** X14.  The two engines of the sources agree: the engine with a
    single global rule computes the matrix that the engine with a rule
    list computes when one rule is configured and the meta rule is
    off. *)
Theorem single_rule_engine :
  forall g init steps,
    rule_n g = 1 -> meta_rule g = 0 ->
    SingleRule.ca1d_run (width g) (height g) (rules g !!! 0%nat) (reversible g)
      init steps =
    ca1d_run g init steps.
Proof.
  intros g init steps Hn Hm.
  unfold SingleRule.ca1d_run, ca1d_run. apply single_run_loop; assumption.
Qed.

Lemma single_rule_engine_witness :
  SingleRule.ca1d_run 1 3 110 1 [1] [[0]; [0]; [0]] =
    ca1d_run (Globals 1 3 1 [110] 1 0) [1] [[0]; [0]; [0]].
Proof.
  apply (single_rule_engine (Globals 1 3 1 [110] 1 0) [1] [[0]; [0]; [0]]
           eq_refl eq_refl).
Defined.

(** ** Runs under a meta rule, and runs that are not reversible *)

Section MoreRuns.

Variables g g' : globals.
Hypothesis same_width : width g' = width g.
Hypothesis same_height : height g' = height g.
Hypothesis same_reversible : reversible g' = reversible g.
Hypothesis same_meta : meta_rule g' = meta_rule g.
Hypothesis meta_on : meta_rule g <> 0.
Hypothesis same_rule_0 : rules g' !!! 0%nat = rules g !!! 0%nat.
Hypothesis same_rule_1 : rules g' !!! 1%nat = rules g !!! 1%nat.

Lemma meta_rule_at_first_two cur i : meta_rule_at g' cur i = meta_rule_at g cur i.
Proof.
  unfold meta_rule_at, ca1d_meta_rule_apply. rewrite same_width, same_meta.
  destruct (meta_index_01 (meta_rule g) (cur !!! left_col (width g) i)
              (cur !!! i) (cur !!! right_col (width g) i)) as [-> | ->];
    assumption.
Qed.

Lemma next_row_first_two prev cur : next_row g' prev cur = next_row g prev cur.
Proof.
  unfold next_row. rewrite same_width. apply row_of_ext. intros i _.
  unfold rule_used. rewrite same_meta.
  destruct (Z.eqb_spec (meta_rule g) 0); [contradiction|].
  apply meta_rule_at_first_two.
Qed.

Lemma run_of_first_two row0 m : run_of g' row0 m -> run_of g row0 m.
Proof.
  intros ([Hlen Hrows] & H0 & Hm). split; [split|split].
  - rewrite <- same_height. exact Hlen.
  - rewrite <- same_width. exact Hrows.
  - exact H0.
  - intros k Hk. rewrite (Hm k) by lia.
    rewrite next_row_first_two. f_equal.
    unfold carry_row. rewrite same_width, same_reversible. reflexivity.
Qed.

End MoreRuns.

(** X15.  With the meta rule on, a run applies only [rules[0]] and
    [rules[1]]: two tables that agree at the indices 0 and 1 give the
    same matrix, whatever their other entries and whatever [rule_n]. *)
Theorem meta_run_first_two_rules :
  forall g g' init steps,
    width g' = width g -> height g' = height g ->
    reversible g' = reversible g -> meta_rule g' = meta_rule g ->
    meta_rule g <> 0 ->
    rules g' !!! 0%nat = rules g !!! 0%nat ->
    rules g' !!! 1%nat = rules g !!! 1%nat ->
    (1 <= width g)%nat -> (2 <= height g)%nat ->
    well_formed g steps -> (width g <= length init)%nat ->
    ca1d_run g' init steps = ca1d_run g init steps.
Proof.
  intros g g' init steps Hw' Hh' Hr Hm Hon H0 H1 Hw Hh Hwf Hinit.
  assert (Hwf' : well_formed g' steps).
  { destruct Hwf as [Hlen Hrows]. split; [rewrite Hh'|rewrite Hw']; assumption. }
  pose proof (ca1d_run_run_of g' ltac:(lia) init steps ltac:(lia) Hwf'
                ltac:(lia)) as Hrun'.
  rewrite Hw' in Hrun'.
  apply (run_of_unique g Hw (take (width g) init)).
  - apply (run_of_first_two g g'); assumption.
  - apply ca1d_run_run_of; assumption.
Qed.

Lemma meta_run_first_two_rules_witness :
  ca1d_run (Globals 2 3 5 [30; 110; 1; 2] 1 7) [1; 0] [[0; 0]; [0; 0]; [0; 0]] =
    ca1d_run (Globals 2 3 2 [30; 110] 1 7) [1; 0] [[0; 0]; [0; 0]; [0; 0]].
Proof.
  apply (meta_run_first_two_rules (Globals 2 3 2 [30; 110] 1 7)
           (Globals 2 3 5 [30; 110; 1; 2] 1 7) [1; 0] [[0; 0]; [0; 0]; [0; 0]]
           eq_refl eq_refl eq_refl eq_refl ltac:(simpl; lia) eq_refl eq_refl
           ltac:(simpl; lia) ltac:(simpl; lia)
           ltac:(split; [reflexivity|repeat constructor])
           ltac:(simpl; lia)).
Defined.

(** X16.  A run that is not reversible can be resumed from any of its
    rows: the run started from row [k] computes, as its row [j], the
    row [k + j] of the first run.  The run is one the
    program completes: with the meta rule off, [rule_n] is not 0 (the
    rule-list row update computes [i % rule_n]). *)
Theorem run_resumes :
  forall g init steps steps' k j,
    (meta_rule g = 0 -> rule_n g <> 0) ->
    (1 <= width g)%nat -> (2 <= height g)%nat ->
    well_formed g steps -> well_formed g steps' ->
    (width g <= length init)%nat ->
    reversible g = 0 -> (k + j < height g)%nat ->
    ca1d_run g (ca1d_run g init steps !!! k) steps' !!! j =
      ca1d_run g init steps !!! (k + j)%nat.
Proof.
  intros g init steps steps' k j Hrn Hw Hh Hwf Hwf' Hinit Hrev.
  destruct (ca1d_run_run_of g Hw init steps Hh Hwf Hinit) as (Hm & _ & Hrec).
  set (m := ca1d_run g init steps) in *.
  induction j as [|j IH]; intros Hkj.
  - assert (Hlen : length (m !!! k) = width g)
      by (apply (well_formed_row g Hw m k Hm); lia).
    destruct (ca1d_run_run_of g Hw (m !!! k) steps' Hh Hwf' ltac:(lia))
      as (_ & H0 & _).
    rewrite H0, take_ge by lia. f_equal. lia.
  - assert (Hlen : length (m !!! k) = width g)
      by (apply (well_formed_row g Hw m k Hm); lia).
    destruct (ca1d_run_run_of g Hw (m !!! k) steps' Hh Hwf' ltac:(lia))
      as (_ & _ & Hrec').
    rewrite (Hrec' (S j)) by lia. rewrite (Hrec (k + S j)%nat) by lia.
    replace (S j - 1)%nat with j by lia.
    replace (k + S j - 1)%nat with (k + j)%nat by lia.
    rewrite IH by lia. f_equal.
    unfold carry_row. rewrite Hrev. simpl.
    destruct (S j <? 2)%nat, (k + S j <? 2)%nat; reflexivity.
Qed.

Lemma run_resumes_witness :
  ca1d_run (Globals 1 3 1 [110] 0 0)
    (ca1d_run (Globals 1 3 1 [110] 0 0) [1] [[0]; [0]; [0]] !!! 1%nat)
    [[0]; [0]; [0]] !!! 1%nat =
  ca1d_run (Globals 1 3 1 [110] 0 0) [1] [[0]; [0]; [0]] !!! (1 + 1)%nat.
Proof.
  apply (run_resumes (Globals 1 3 1 [110] 0 0) [1] [[0]; [0]; [0]]
           [[0]; [0]; [0]] 1 1
           ltac:(simpl; intros; lia) ltac:(simpl; lia) ltac:(simpl; lia)
           ltac:(split; [reflexivity|repeat constructor])
           ltac:(split; [reflexivity|repeat constructor])
           ltac:(simpl; lia) eq_refl ltac:(simpl; lia)).
Defined.
